(** * Siraaj: the parquetSource patch scripts

    A shallow embedding of the three Python scripts that patch
    [internal/repository/event_repository.go]:

    - [fix_parquet_funcs.py]   (the Structural Inserter),
    - [fix_parquet_queries.py] (the Call-Site Rewriter, general pattern),
    - [fix_sprintf.py]         (the Call-Site Rewriter, exception pattern),

    together with the fragment of Python's [str] and [re] that they use.
    File input and output are outside the model: a script is a function
    from the text (or the list of lines) that was read to the one that is
    written back. *)

From Stdlib Require Import Ascii String List Arith Bool Lia.
Import ListNotations.


(** ** Python [str] *)

(** A [str] is a sequence of characters; [py] turns a literal into one. *)
Definition text := list ascii.

Definition py (s : string) : text := list_ascii_of_string s.

Definition TAB : ascii := "009"%char.
Definition NEWLINE : ascii := "010"%char.
Definition BACKTICK : ascii := "`"%char.

(** [s.startswith(p)] *)
Fixpoint startswith (p s : text) : bool :=
  match p, s with
  | [], _ => true
  | _ :: _, [] => false
  | a :: p', c :: s' => Ascii.eqb a c && startswith p' s'
  end.

(** [needle in s] *)
Fixpoint contains (needle s : text) : bool :=
  startswith needle s
  || match s with
     | [] => false
     | _ :: s' => contains needle s'
     end.

(** [str.isspace] on one character, for the code points below 256: this is
    the class that [\s] denotes in a [str] pattern. *)
Definition isspace (c : ascii) : bool :=
  let n := nat_of_ascii c in
  ((9 <=? n) && (n <=? 13)) || ((28 <=? n) && (n <=? 32))
  || (n =? 133) || (n =? 160).

(** [l.insert(j, x)]: an index past the end appends. *)
Definition list_insert {A : Type} (j : nat) (x : A) (l : list A) : list A :=
  firstn j l ++ x :: skipn j l.

(** ** Python [re]: the fragment used by the scripts *)

Module re.

(** One-character sets. *)
Inductive charset : Type :=
| LITERAL (c : ascii)          (* an ordinary or escaped character *)
| NOT_LITERAL (c : ascii)      (* [^c] *)
| CATEGORY_SPACE.              (* \s *)

Definition accepts (cs : charset) (c : ascii) : bool :=
  match cs with
  | LITERAL a => Ascii.eqb a c
  | NOT_LITERAL a => negb (Ascii.eqb a c)
  | CATEGORY_SPACE => isspace c
  end.

(** Compiled pattern code: a flat sequence, groups delimited by marks
    (group [g] lies between [MARK (2g-2)] and [MARK (2g-1)]). *)
Inductive op : Type :=
| ONE (cs : charset)
| MAX_REPEAT (min : nat) (cs : charset)   (* greedy x* (min 0), x+ (min 1) *)
| MARK (n : nat).

Definition marks := list (nat * nat).

(** *** Compiling a pattern *)

(** The item at the head of the pattern text, with the rest of the text. *)
Definition item (s : text) : option (charset * text) :=
  match s with
  | "\"%char :: "s"%char :: r => Some (CATEGORY_SPACE, r)
  | "\"%char :: "n"%char :: r => Some (LITERAL NEWLINE, r)
  | "\"%char :: c :: r => Some (LITERAL c, r)
  | "["%char :: "^"%char :: c :: "]"%char :: r => Some (NOT_LITERAL c, r)
  | c :: r => Some (LITERAL c, r)
  | [] => None
  end.

(** [parse fuel s g opened]: [g] is the number of the next group and
    [opened] the stack of groups not closed yet.  [None] is [re.error]. *)
Fixpoint parse (fuel : nat) (s : text) (g : nat) (opened : list nat)
  : option (list op) :=
  match fuel with
  | 0 => None
  | S fuel' =>
    match s with
    | [] => match opened with [] => Some [] | _ :: _ => None end
    | "("%char :: r =>
        option_map (cons (MARK (2 * g - 2))) (parse fuel' r (S g) (g :: opened))
    | ")"%char :: r =>
        match opened with
        | [] => None
        | h :: opened' =>
            option_map (cons (MARK (2 * h - 1))) (parse fuel' r g opened')
        end
    | _ =>
        match item s with
        | None => None
        | Some (cs, "*"%char :: r) =>
            option_map (cons (MAX_REPEAT 0 cs)) (parse fuel' r g opened)
        | Some (cs, "+"%char :: r) =>
            option_map (cons (MAX_REPEAT 1 cs)) (parse fuel' r g opened)
        | Some (cs, r) =>
            option_map (cons (ONE cs)) (parse fuel' r g opened)
        end
    end
  end.

Definition compile (pattern : text) : option (list op) :=
  parse (S (length pattern)) pattern 1 [].

(** *** Matching at a position *)

(** Greedy repetition of a one-character set: take as many characters as
    the set accepts, then give them back one at a time until the rest of
    the pattern ([k]) matches. *)
Fixpoint repeat_one {R : Type} (cs : charset) (k : text -> nat -> option R)
         (s : text) (pos need : nat) : option R :=
  let stop := if need =? 0 then k s pos else None in
  match s with
  | c :: s' =>
      if accepts cs c
      then match repeat_one cs k s' (S pos) (pred need) with
           | Some r => Some r
           | None => stop
           end
      else stop
  | [] => stop
  end.

(** [exec code s pos mk]: match [code] against [s], which starts at offset
    [pos] of the match; the result is the offset of the end of the match
    and the marks set on the way. *)
Fixpoint exec (code : list op) (s : text) (pos : nat) (mk : marks)
  : option (nat * marks) :=
  match code with
  | [] => Some (pos, mk)
  | ONE cs :: code' =>
      match s with
      | c :: s' => if accepts cs c then exec code' s' (S pos) mk else None
      | [] => None
      end
  | MAX_REPEAT min cs :: code' =>
      repeat_one cs (fun s' pos' => exec code' s' pos' mk) s pos min
  | MARK n :: code' => exec code' s pos ((n, pos) :: mk)
  end.

(** [pattern.match(s)] at the head of [s]. *)
Definition match_ (code : list op) (s : text) : option (nat * marks) :=
  exec code s 0 [].

Fixpoint mark (mk : marks) (n : nat) : option nat :=
  match mk with
  | [] => None
  | (m, p) :: mk' => if m =? n then Some p else mark mk' n
  end.

(** [m.group(g)] of a match at the head of [s]; a group that did not take
    part in the match expands to the empty string. *)
Definition group (s : text) (mk : marks) (g : nat) : text :=
  match mark mk (2 * g - 2), mark mk (2 * g - 1) with
  | Some a, Some b => firstn (b - a) (skipn a s)
  | _, _ => []
  end.

(** *** Replacement templates *)

Inductive titem : Type :=
| TLIT (c : ascii)
| TGROUP (g : nat).

Definition digit (c : ascii) : option nat :=
  let n := nat_of_ascii c in
  if (48 <=? n) && (n <=? 57) then Some (n - 48) else None.

(** A backslash followed by a digit refers to a group; the templates of
    the scripts have no other escape. *)
Fixpoint parse_template (repl : text) : list titem :=
  match repl with
  | [] => []
  | c :: r =>
      match r with
      | d :: r' =>
          if Ascii.eqb c "\"%char
          then match digit d with
               | Some g => TGROUP g :: parse_template r'
               | None => TLIT c :: parse_template r
               end
          else TLIT c :: parse_template r
      | [] => [TLIT c]
      end
  end.

Definition expand (tmpl : list titem) (s : text) (mk : marks) : text :=
  flat_map (fun t => match t with
                     | TLIT c => [c]
                     | TGROUP g => group s mk g
                     end) tmpl.

(** *** [re.sub] *)

(** The scan of [re.sub]: at every position that is not inside an earlier
    match ([skip = 0]) the pattern is tried; a match is replaced by the
    expanded template and the scan goes on after it, anything else is
    copied.  [skip] counts the characters of the current match that are
    still to be passed over. *)
Fixpoint scan (code : list op) (tmpl : list titem) (skip : nat) (s : text)
  : text :=
  match skip with
  | S skip' =>
      match s with
      | [] => []
      | _ :: s' => scan code tmpl skip' s'
      end
  | 0 =>
      match match_ code s with
      | Some (e, mk) =>
          expand tmpl s mk ++
          match s with
          | [] => []
          | c :: s' =>
              match e with
              | 0 => c :: scan code tmpl 0 s'
              | S e' => scan code tmpl e' s'
              end
          end
      | None =>
          match s with
          | [] => []
          | c :: s' => c :: scan code tmpl 0 s'
          end
      end
  end.

(** [re.sub(pattern, repl, string)]; [None] stands for [re.error]. *)
Definition sub (pattern repl string : text) : option text :=
  match compile pattern with
  | None => None
  | Some code => Some (scan code (parse_template repl) 0 string)
  end.

End re.

(** ** [fix_parquet_funcs.py]: the Structural Inserter *)

Module fix_parquet_funcs.

Definition functions_needing_fix : list text :=
  map py [ "GetEntryExitPages"; "GetTopCountries"; "GetTopSources";
           "GetTopEvents"; "GetBrowsersDevicesOS"; "GetChannels";
           "GetProjects" ]%string.

(** [f'func (r *eventRepository) {func_name}'] *)
Definition marker (func_name : text) : text :=
  py "func (r *eventRepository) " ++ func_name.

Definition indent : text := [TAB].

(** [f'{indent}parquetSource := r.getParquetSource()\n'] *)
Definition binding_line : text :=
  indent ++ py "parquetSource := r.getParquetSource()" ++ [NEWLINE].

Definition has_brace (line : text) : bool := contains (py "{") line.

Definition has_binding (line : text) : bool :=
  contains (py "parquetSource :=") line.

(** [while j < len(lines) and '{' not in lines[j]: j += 1], where [rest]
    is [lines[j:]]. *)
Fixpoint skip_to_brace (rest : list text) (j : nat) : nat :=
  match rest with
  | [] => j
  | l :: rest' => if has_brace l then j else skip_to_brace rest' (S j)
  end.

(** The body of the outer loop at index [i]: the buffer after it, and what
    it printed.  The [for] over the names stops at the first one whose
    marker occurs in the line ([break]). *)
Definition body (i : nat) (lines : list text) : list text * list text :=
  match nth_error lines i with
  | None => (lines, [])
  | Some line =>
      match find (fun func_name => contains (marker func_name) line)
                 functions_needing_fix with
      | None => (lines, [])
      | Some func_name =>
          let j := i + 1 in
          let j := skip_to_brace (skipn j lines) j in
          let j := j + 1 in
          match nth_error lines j with
          | Some lj =>
              if negb (has_binding lj)
              then (list_insert j binding_line lines,
                    [py "Added parquetSource to " ++ func_name])
              else (lines, [])
          | None => (lines, [])
          end
      end
  end.

(** [i = ...; while i < len(lines): ...; i += 1].  The buffer grows while
    the loop runs, so the loop is given fuel; [None] is "out of fuel". *)
Fixpoint while_loop (fuel i : nat) (lines printed : list text)
  : option (list text * list text) :=
  if i <? length lines then
    match fuel with
    | 0 => None
    | S fuel' =>
        let (lines', out) := body i lines in
        while_loop fuel' (S i) lines' (printed ++ out)
    end
  else Some (lines, printed).

(** The script between [readlines] and [writelines]: the lines written
    back and the lines printed. *)
Definition run (lines : list text) : option (list text * list text) :=
  match while_loop (2 * length lines) 0 lines [] with
  | Some (lines', printed) =>
      Some (lines',
            printed ++ [py "Fixed all functions to include parquetSource"])
  | None => None
  end.

(** What [f.writelines(lines)] writes. *)
Definition written (lines : list text) : option (list text) :=
  option_map fst (run lines).

End fix_parquet_funcs.

(** ** [fix_parquet_queries.py]: the Call-Site Rewriter, general pattern *)

Module fix_parquet_queries.

Definition pattern : text :=
  py "(fmt\.Sprintf\(`[^`]*FROM %s[^`]*`), whereClause\)".

Definition replacement : text := py "\1, parquetSource, whereClause)".

(** [new_content = re.sub(pattern, replacement, content)] *)
Definition new_content (content : text) : option text :=
  re.sub pattern replacement content.

End fix_parquet_queries.

(** ** [fix_sprintf.py]: the Call-Site Rewriter, exception pattern *)

Module fix_sprintf.

Definition pattern : text :=
  py "(strftime\(DATE_TRUNC\('month', timestamp\), '%%Y-%%m-01'\) as date, \n\s+%s\n\s+FROM %s \n\s+WHERE %s\n\s+GROUP BY date \n\s+ORDER BY date\n\s+`), (selectClause), (whereClause)\)".

Definition replacement : text := py "\1, \2, parquetSource, \3)".

(** [content = re.sub(..., ..., content)] *)
Definition new_content (content : text) : option text :=
  re.sub pattern replacement content.

End fix_sprintf.

(** * The vocabulary of the statements *)

(** ** Pattern code *)

(** [denotes code s pos mk res]: some way of matching [code] against a
    prefix of [s] ends with the result [res].  The matcher [re.exec] returns
    the first such result in its order of preference. *)
Fixpoint denotes (code : list re.op) (s : text) (pos : nat) (mk : re.marks)
         (res : nat * re.marks) : Prop :=
  match code with
  | [] => res = (pos, mk)
  | re.ONE cs :: code' =>
      exists c s', s = c :: s' /\ re.accepts cs c = true /\
                   denotes code' s' (S pos) mk res
  | re.MAX_REPEAT min cs :: code' =>
      exists a r, s = a ++ r /\ forallb (re.accepts cs) a = true /\
                  min <= length a /\
                  denotes code' r (pos + length a) mk res
  | re.MARK n :: code' => denotes code' s pos ((n, pos) :: mk) res
  end.

(** Code for a literal word. *)
Definition lits (w : text) : list re.op :=
  map (fun c => re.ONE (re.LITERAL c)) w.

(** [no_match_starts_in code pre suf]: in the text [pre ++ suf] the pattern
    matches at no position of [pre]; the scan of [re.sub] then copies [pre]
    and arrives at [suf]. *)
Fixpoint no_match_starts_in (code : list re.op) (pre suf : text) : bool :=
  match pre with
  | [] => true
  | _ :: pre' =>
      match re.match_ code (pre ++ suf) with
      | None => no_match_starts_in code pre' suf
      | Some _ => false
      end
  end.

(** [scan_arrives code skip pre suf]: the scan of [re.sub], started at the
    head of [pre ++ suf] with [skip] characters of a match still to pass,
    comes to the start of [suf] with no match under way: every match that it
    finds in [pre] ends in [pre].  The cases are those of [re.scan]. *)
Fixpoint scan_arrives (code : list re.op) (skip : nat) (pre suf : text)
  : bool :=
  match pre with
  | [] => skip =? 0
  | _ :: pre' =>
      match skip with
      | S skip' => scan_arrives code skip' pre' suf
      | 0 =>
          match re.match_ code (pre ++ suf) with
          | Some (S e', _) => scan_arrives code e' pre' suf
          | Some (0, _) => scan_arrives code 0 pre' suf
          | None => scan_arrives code 0 pre' suf
          end
      end
  end.

(** Running one script and then the other. *)
Definition and_then (f g : text -> option text) (content : text)
  : option text :=
  match f content with
  | Some content' => g content'
  | None => None
  end.

(** ** The general pattern and the calls it is written for *)

Definition CALLEE : text := py "fmt.Sprintf(".
Definition OPEN : text := py "fmt.Sprintf(`".
Definition GUARD : text := py "FROM %s".
Definition ARGS : text := py ", whereClause)".
Definition NEW_ARGS : text := py ", parquetSource, whereClause)".

(** [fmt.Sprintf(] closed at once by a backtick and the trailing argument:
    the end of a call whose literal ends with [fmt.Sprintf(]. *)
Definition NESTED : text := py "fmt.Sprintf(`, whereClause)".

Definition no_backtick (L : text) : bool :=
  forallb (fun c => negb (Ascii.eqb BACKTICK c)) L.

Definition no_f (T : text) : bool :=
  forallb (fun a => negb (Ascii.eqb "f" a)) T.

(** The call [fmt.Sprintf(`L`, whereClause)] and its rewritten form. *)
Definition call (L : text) : text := OPEN ++ L ++ BACKTICK :: ARGS.
Definition patched_call (L : text) : text := OPEN ++ L ++ BACKTICK :: NEW_ARGS.

(** What [fix_parquet_queries.pattern] compiles to. *)
Definition general_code : list re.op :=
  [re.MARK 0] ++ lits OPEN
  ++ [re.MAX_REPEAT 0 (re.NOT_LITERAL BACKTICK)] ++ lits GUARD
  ++ [re.MAX_REPEAT 0 (re.NOT_LITERAL BACKTICK)] ++ lits [BACKTICK]
  ++ [re.MARK 1] ++ lits ARGS.

Definition rewrite_general (content : text) : text :=
  re.scan general_code (re.parse_template fix_parquet_queries.replacement)
          0 content.

(** The end and the marks of a match of the call with literal [L]. *)
Definition general_result (L : text) : nat * re.marks :=
  (length (call L), [(1, length (OPEN ++ L ++ [BACKTICK])); (0, 0)]).

(** ** The exception pattern and the call it is written for *)

Definition K0 : text :=
  py "strftime(DATE_TRUNC('month', timestamp), '%%Y-%%m-01') as date, "
  ++ [NEWLINE].
Definition K1 : text := py "%s" ++ [NEWLINE].
Definition K2 : text := py "FROM %s " ++ [NEWLINE].
Definition K3 : text := py "WHERE %s" ++ [NEWLINE].
Definition K4 : text := py "GROUP BY date " ++ [NEWLINE].
Definition K5 : text := py "ORDER BY date" ++ [NEWLINE].

Definition ARGS2 : text := py ", selectClause, whereClause)".
Definition NEW_ARGS2 : text := py ", selectClause, parquetSource, whereClause)".

Definition SPACES : re.op := re.MAX_REPEAT 1 re.CATEGORY_SPACE.

(** What [fix_sprintf.pattern] compiles to. *)
Definition exception_code : list re.op :=
  [re.MARK 0] ++ lits K0 ++ [SPACES] ++ lits K1 ++ [SPACES] ++ lits K2
  ++ [SPACES] ++ lits K3 ++ [SPACES] ++ lits K4 ++ [SPACES] ++ lits K5
  ++ [SPACES] ++ lits [BACKTICK]
  ++ [re.MARK 1] ++ lits (py ", ")
  ++ [re.MARK 2] ++ lits (py "selectClause")
  ++ [re.MARK 3] ++ lits (py ", ")
  ++ [re.MARK 4] ++ lits (py "whereClause")
  ++ [re.MARK 5] ++ lits (py ")").

Definition rewrite_exception (content : text) : text :=
  re.scan exception_code (re.parse_template fix_sprintf.replacement) 0 content.

(** A non-empty run of white space. *)
Definition blank (w : text) : bool :=
  match w with
  | [] => false
  | _ :: _ => forallb isspace w
  end.

(** The tail of the month query that the pattern is anchored on, with the
    white space that the pattern leaves open. *)
Definition month_query (w1 w2 w3 w4 w5 w6 : text) : text :=
  K0 ++ w1 ++ K1 ++ w2 ++ K2 ++ w3 ++ K3 ++ w4 ++ K4 ++ w5 ++ K5 ++ w6.

Inductive Fragment : text -> Prop :=
| fragment_intro : forall w1 w2 w3 w4 w5 w6,
    blank w1 = true -> blank w2 = true -> blank w3 = true ->
    blank w4 = true -> blank w5 = true -> blank w6 = true ->
    Fragment (month_query w1 w2 w3 w4 w5 w6).

(** The end and the marks of a match of the fragment [F] and the two
    arguments. *)
Definition exception_result (F : text) : nat * re.marks :=
  let n := length F in
  (n + 29,
   [(5, n + 28); (4, n + 17); (3, n + 15); (2, n + 3); (1, n + 1); (0, 0)]).

(** The number of characters that are not white space. *)
Definition nonspace (w : text) : nat :=
  length (filter (fun c => negb (isspace c)) w).

(** The two-argument call [fmt.Sprintf(`L`, selectClause, whereClause)] and
    its rewritten form. *)
Definition call2 (L : text) : text := OPEN ++ L ++ BACKTICK :: ARGS2.
Definition patched_call2 (L : text) : text := OPEN ++ L ++ BACKTICK :: NEW_ARGS2.

(** ** The Structural Inserter *)

Import fix_parquet_funcs.

(** The line contains the definition marker of one of the target names. *)
Definition is_target (line : text) : bool :=
  existsb (fun func_name => contains (marker func_name) line)
          functions_needing_fix.

Definition target_at (i : nat) (lines : list text) : bool :=
  match nth_error lines i with
  | Some line => is_target line
  | None => false
  end.

(** The line is the definition of a method called [func_name]: the marker
    followed by the parameter list. *)
Definition defines (func_name line : text) : bool :=
  contains (marker func_name ++ py "(") line.

(** Index in [rest] of the first line with a brace, [length rest] if none. *)
Fixpoint first_brace (rest : list text) : nat :=
  match rest with
  | [] => 0
  | l :: rest' => if has_brace l then 0 else S (first_brace rest')
  end.

(** Where the iteration at [i] looks for the binding. *)
Definition insertion_point (i : nat) (lines : list text) : nat :=
  (i + 1) + first_brace (skipn (i + 1) lines) + 1.

Definition needs_binding (j : nat) (lines : list text) : bool :=
  match nth_error lines j with
  | Some lj => negb (has_binding lj)
  | None => false
  end.

(** The buffer after the iteration at [i] (the first component of
    [body i lines]). *)
Definition step (i : nat) (lines : list text) : list text :=
  if target_at i lines && needs_binding (insertion_point i lines) lines
  then list_insert (insertion_point i lines) binding_line lines
  else lines.

Definition count_targets (lines : list text) : nat :=
  length (filter is_target lines).

(** What decreases with every iteration of the loop. *)
Definition measure (i : nat) (lines : list text) : nat :=
  (length lines - i) + count_targets (skipn i lines).

(** Every iteration below [i] leaves the buffer as it is. *)
Definition stable_below (i : nat) (lines : list text) : Prop :=
  forall k, k < i -> step k lines = lines.

(** [subsequence a b]: [b] is [a] with elements added. *)
Inductive subsequence {A : Type} : list A -> list A -> Prop :=
| sub_nil : forall l, subsequence [] l
| sub_cons : forall x a b, subsequence a b -> subsequence (x :: a) (x :: b)
| sub_skip : forall x a b, subsequence a b -> subsequence a (x :: b).

(** ** Buffers used as examples *)

(** Scenario A of the specification, with the target [GetProjects]. *)
Definition scenario_A : list text :=
  [ py "func (r *eventRepository) GetProjects() {" ++ [NEWLINE];
    [TAB] ++ py "doSomething()" ++ [NEWLINE];
    py "}" ++ [NEWLINE] ].

(** A target function with a one-line signature, followed by a function
    that is not a target. *)
Definition two_functions : list text :=
  [ py "func (r *eventRepository) GetProjects() {" ++ [NEWLINE];
    [TAB] ++ py "return nil" ++ [NEWLINE];
    py "}" ++ [NEWLINE];
    py "func (r *eventRepository) Other() {" ++ [NEWLINE];
    [TAB] ++ py "y()" ++ [NEWLINE];
    py "}" ++ [NEWLINE] ].

(** A target function that has the binding already. *)
Definition patched_function : list text :=
  [ py "func (r *eventRepository) GetTopEvents(" ++ [NEWLINE];
    py ") {" ++ [NEWLINE];
    binding_line;
    [TAB] ++ py "x()" ++ [NEWLINE];
    py "}" ++ [NEWLINE] ].

(** A function whose name extends the target name [GetProjects]. *)
Definition longer_name_buffer : list text :=
  [ py "func (r *eventRepository) GetProjectsByID(" ++ [NEWLINE];
    py ") {" ++ [NEWLINE];
    [TAB] ++ py "x()" ++ [NEWLINE];
    py "}" ++ [NEWLINE] ].

(** The literal of a month query as it is laid out in a Go file. *)
Definition month_literal : text :=
  py "SELECT "
  ++ month_query [TAB] [TAB] [TAB; TAB] [TAB] [TAB] [NEWLINE; TAB].

(** A target signature that the buffer ends in the middle of. *)
Definition unfinished_signature : list text :=
  [ py "package repository" ++ [NEWLINE];
    py "func (r *eventRepository) GetChannels(" ++ [NEWLINE];
    [TAB] ++ py "ctx context.Context," ++ [NEWLINE] ].

(** A call without the guard, [fmt.Sprintf(`, whereClause) x`, whereClause)],
    right after a backtick and [FROM %s ]: the text of the earlier call runs
    into it. *)
Definition overlapped_literal : text := py ", whereClause) x".
Definition overlapped_call : text :=
  py "fmt.Sprintf(`FROM %s " ++ call overlapped_literal.

Definition QUOTE : ascii := "034"%char.

(** A Go statement with one call, none of whose raw string literals
    contains the guard:
    [x := fmt.Sprintf(`a fmt.Sprintf(`, "FROM %s", `, whereClause) b`)]. *)
Definition three_literals : text :=
  py "x := fmt.Sprintf(`a fmt.Sprintf(`, " ++ [QUOTE] ++ py "FROM %s"
  ++ [QUOTE] ++ py ", `, whereClause) b`)".

Definition three_literals_rewritten : text :=
  py "x := fmt.Sprintf(`a fmt.Sprintf(`, " ++ [QUOTE] ++ py "FROM %s"
  ++ [QUOTE] ++ py ", `, parquetSource, whereClause) b`)".

(** A call with the guard, then a call without it. *)
Definition guarded_then_unguarded : text :=
  py "a := " ++ call (py "SELECT x FROM %s WHERE %s") ++ py "; n := ".

(** ** What the inserter prints *)

(** [f"Added parquetSource to {func_name}"] *)
Definition added_message (func_name : text) : text :=
  py "Added parquetSource to " ++ func_name.

Definition final_message : text :=
  py "Fixed all functions to include parquetSource".

(** The name that the [for] loop stops at on the line [line]. *)
Definition first_target (line : text) : option text :=
  find (fun func_name => contains (marker func_name) line)
       functions_needing_fix.

(** ** What the rewriters insert *)

(** The pieces, each followed by [args], and then [rest]. *)
Definition joined (args : text) (pieces : list text) (rest : text) : text :=
  flat_map (fun p => p ++ args) pieces ++ rest.

(** The first words of the month query, which the exception pattern starts
    with. *)
Definition MONTH : text := py "strftime(DATE_TRUNC('month', timestamp)".

(** No place of [T] can be the start of a word that begins with [st]:
    every [s] of [T] is followed by a character other than [t]. *)
Fixpoint no_st (T : text) : bool :=
  match T with
  | [] => true
  | c :: T' =>
      negb (Ascii.eqb c "s"
            && match T' with [] => true | d :: _ => Ascii.eqb d "t" end)
      && no_st T'
  end.

(** * Properties *)

(** ** Facts about [str] operations *)

Lemma startswith_app (p r : text) : startswith p (p ++ r) = true.
Proof.
  induction p as [|a p IH]; simpl; [reflexivity|].
  now rewrite Ascii.eqb_refl.
Qed.

Lemma startswith_spec (p s : text) :
  startswith p s = true <-> exists r, s = p ++ r.
Proof.
  split.
  - revert s; induction p as [|a p IH]; intros s H.
    + now exists s.
    + destruct s as [|c s]; simpl in H; [discriminate|].
      apply andb_true_iff in H as [Hc Hp].
      apply Ascii.eqb_eq in Hc; subst c.
      destruct (IH _ Hp) as [r ->]. now exists r.
  - intros [r ->]. apply startswith_app.
Qed.

Lemma startswith_skipn (p s : text) :
  startswith p s = true -> s = p ++ skipn (length p) s.
Proof.
  intros H. apply startswith_spec in H as [r ->].
  now rewrite skipn_app, Nat.sub_diag, skipn_all.
Qed.

Lemma contains_unfold (w s : text) :
  contains w s
  = startswith w s || match s with [] => false | _ :: s' => contains w s' end.
Proof. destruct s; reflexivity. Qed.

Lemma contains_spec (w s : text) :
  contains w s = true <-> exists a b, s = a ++ w ++ b.
Proof.
  split.
  - induction s as [|c s IH]; simpl; intros H.
    + apply orb_true_iff in H as [H|H]; [|discriminate].
      apply startswith_spec in H as [r ->]. now exists [], r.
    + apply orb_true_iff in H as [H|H].
      * apply startswith_spec in H as [r ->]. now exists [], r.
      * destruct (IH H) as (a & b & ->). now exists (c :: a), b.
  - intros (a & b & ->). induction a as [|c a IH].
    + change ([] ++ w ++ b) with (w ++ b).
      rewrite contains_unfold, startswith_app. reflexivity.
    + change ((c :: a) ++ w ++ b) with (c :: (a ++ w ++ b)).
      rewrite contains_unfold, IH. apply orb_true_r.
Qed.

Lemma contains_false_suffix (w : text) (c : ascii) (s : text) :
  contains w (c :: s) = false -> contains w s = false.
Proof.
  simpl. intros H. now apply orb_false_iff in H as [_ H].
Qed.

Lemma contains_app_r (w a b : text) :
  contains w b = true -> contains w (a ++ b) = true.
Proof.
  intros H. apply contains_spec in H as (x & y & ->).
  apply contains_spec. exists (a ++ x), y. now rewrite <- app_assoc.
Qed.

Lemma contains_app_l (w a b : text) :
  contains w a = true -> contains w (a ++ b) = true.
Proof.
  intros H. apply contains_spec in H as (x & y & ->).
  apply contains_spec. exists x, (y ++ b). now rewrite <- !app_assoc.
Qed.

(** ** The meaning of pattern code *)

Lemma repeat_one_sound (R : Type) cs (k : text -> nat -> option R) :
  forall s pos need r,
    re.repeat_one cs k s pos need = Some r ->
    exists a b, s = a ++ b /\ forallb (re.accepts cs) a = true /\
                need <= length a /\ k b (pos + length a) = Some r.
Proof.
  induction s as [|c s IH]; intros pos need r H; simpl in H.
  - destruct (Nat.eqb_spec need 0) as [->|]; [|discriminate].
    exists [], []. simpl. now rewrite Nat.add_0_r.
  - destruct (re.accepts cs c) eqn:Hc.
    + destruct (re.repeat_one cs k s (S pos) (pred need)) eqn:Hr.
      * injection H as ->.
        destruct (IH _ _ _ Hr) as (a & b & -> & Ha & Hn & Hk).
        exists (c :: a), b. simpl. rewrite Hc, Ha.
        repeat split; [lia|]. now rewrite <- Nat.add_succ_comm.
      * destruct (Nat.eqb_spec need 0) as [->|]; [|discriminate].
        exists [], (c :: s). simpl. now rewrite Nat.add_0_r.
    + destruct (Nat.eqb_spec need 0) as [->|]; [|discriminate].
      exists [], (c :: s). simpl. now rewrite Nat.add_0_r.
Qed.

Lemma repeat_one_complete (R : Type) cs (k : text -> nat -> option R) :
  forall a b pos need r,
    forallb (re.accepts cs) a = true -> need <= length a ->
    k b (pos + length a) = Some r ->
    exists r', re.repeat_one cs k (a ++ b) pos need = Some r'.
Proof.
  induction a as [|c a IH]; intros b pos need r Ha Hn Hk; simpl in *.
  - assert (need = 0) as -> by lia. rewrite Nat.add_0_r in Hk.
    destruct b as [|c b]; simpl; [now exists r|].
    destruct (re.accepts cs c); [|now exists r].
    destruct (re.repeat_one cs k b (S pos) 0); eauto.
  - apply andb_true_iff in Ha as [Hc Ha]. rewrite Hc.
    rewrite <- Nat.add_succ_comm in Hk.
    destruct (IH b (S pos) (pred need) r Ha ltac:(lia) Hk) as [r' ->].
    now exists r'.
Qed.

Lemma exec_sound :
  forall code s pos mk res,
    re.exec code s pos mk = Some res -> denotes code s pos mk res.
Proof.
  induction code as [|o code IH]; intros s pos mk res H; simpl in *.
  - now injection H as <-.
  - destruct o as [cs|min cs|n].
    + destruct s as [|c s]; [discriminate|].
      destruct (re.accepts cs c) eqn:Hc; [|discriminate].
      exists c, s. auto.
    + apply repeat_one_sound in H as (a & b & -> & Ha & Hn & Hk).
      exists a, b. auto.
    + auto.
Qed.

Lemma exec_complete :
  forall code s pos mk res,
    denotes code s pos mk res -> exists res', re.exec code s pos mk = Some res'.
Proof.
  induction code as [|o code IH]; intros s pos mk res H; simpl in *.
  - subst res. eauto.
  - destruct o as [cs|min cs|n].
    + destruct H as (c & s' & -> & Hc & H). rewrite Hc. eauto.
    + destruct H as (a & r & -> & Ha & Hn & H).
      destruct (IH _ _ _ _ H) as [res' Hres'].
      eapply repeat_one_complete; eauto.
    + eauto.
Qed.

(** When every way of matching ends with the same result, that result is
    what the matcher returns. *)
Lemma exec_unambiguous code s pos mk res :
  denotes code s pos mk res ->
  (forall res', denotes code s pos mk res' -> res' = res) ->
  re.exec code s pos mk = Some res.
Proof.
  intros H U. destruct (exec_complete _ _ _ _ _ H) as [res' E].
  rewrite E. f_equal. apply U. now apply exec_sound.
Qed.

Lemma exec_none code s pos mk :
  (forall res, ~ denotes code s pos mk res) -> re.exec code s pos mk = None.
Proof.
  intros N. destruct (re.exec code s pos mk) as [res|] eqn:E; [|reflexivity].
  exfalso. exact (N _ (exec_sound _ _ _ _ _ E)).
Qed.

Lemma denotes_lits w code s pos mk res :
  denotes (lits w ++ code) s pos mk res <->
  exists r, s = w ++ r /\ denotes code r (pos + length w) mk res.
Proof.
  revert s pos. induction w as [|a w IH]; intros s pos; simpl.
  - rewrite Nat.add_0_r. split.
    + intros H. now exists s.
    + now intros (r & -> & H).
  - split.
    + intros (c & s' & -> & Hc & H). apply Ascii.eqb_eq in Hc; subst c.
      apply IH in H as (r & -> & H). exists r.
      now rewrite <- Nat.add_succ_comm.
    + intros (r & -> & H). exists a, (w ++ r). rewrite Ascii.eqb_refl.
      repeat split. apply IH. exists r. now rewrite Nat.add_succ_comm.
Qed.

Lemma denotes_end_bound :
  forall code s pos mk e mk',
    denotes code s pos mk (e, mk') -> pos <= e <= pos + length s.
Proof.
  induction code as [|o code IH]; intros s pos mk e mk' H; simpl in H.
  - injection H as -> ->. lia.
  - destruct o as [cs|min cs|n].
    + destruct H as (c & s' & -> & _ & H). apply IH in H. simpl. lia.
    + destruct H as (a & r & -> & _ & _ & H). apply IH in H.
      rewrite length_app. lia.
    + apply IH in H. lia.
Qed.

Lemma match_end_bound code s e mk :
  re.match_ code s = Some (e, mk) -> e <= length s.
Proof.
  intros H. apply exec_sound, denotes_end_bound in H. lia.
Qed.

(** ** The scan of [re.sub] *)

Section Scan.

Variable code : list re.op.
Variable tmpl : list re.titem.

Lemma scan_skip : forall k s,
    k <= length s ->
    re.scan code tmpl k s = re.scan code tmpl 0 (skipn k s).
Proof.
  induction k as [|k IH]; intros s Hk; [reflexivity|].
  destruct s as [|c s]; [simpl in Hk; lia|]. simpl in Hk.
  simpl skipn. rewrite <- IH by lia. reflexivity.
Qed.

(** A match is replaced by the expanded template, and the scan resumes
    after it. *)
Lemma scan_match s e mk :
  re.match_ code s = Some (e, mk) -> 0 < e ->
  re.scan code tmpl 0 s
  = re.expand tmpl s mk ++ re.scan code tmpl 0 (skipn e s).
Proof.
  intros H He. pose proof (match_end_bound _ _ _ _ H) as B.
  destruct e as [|e]; [lia|].
  destruct s as [|c s]; [simpl in B; lia|].
  simpl re.scan. rewrite H. f_equal. apply scan_skip. simpl in B. lia.
Qed.

(** Where the pattern does not match, one character is copied. *)
Lemma scan_copy c s :
  re.match_ code (c :: s) = None ->
  re.scan code tmpl 0 (c :: s) = c :: re.scan code tmpl 0 s.
Proof. intros H. simpl. now rewrite H. Qed.

Lemma scan_prefix : forall pre suf,
    no_match_starts_in code pre suf = true ->
    re.scan code tmpl 0 (pre ++ suf) = pre ++ re.scan code tmpl 0 suf.
Proof.
  induction pre as [|c pre IH]; intros suf H; [reflexivity|].
  simpl in H. destruct (re.match_ code (c :: pre ++ suf)) eqn:E;
    [discriminate|].
  simpl app. rewrite scan_copy by exact E. now rewrite IH.
Qed.

Lemma no_match_starts_in_spec : forall pre suf,
    no_match_starts_in code pre suf = true <->
    forall k, k < length pre -> re.match_ code (skipn k (pre ++ suf)) = None.
Proof.
  induction pre as [|c pre IH]; intros suf; simpl.
  - split; [intros _ k Hk; lia|reflexivity].
  - split.
    + intros H k Hk.
      destruct (re.match_ code (c :: pre ++ suf)) eqn:E; [discriminate|].
      destruct k as [|k]; [exact E|]. simpl. apply IH; [exact H|lia].
    + intros H. pose proof (H 0 ltac:(lia)) as E. simpl in E. rewrite E.
      apply IH.
      intros k Hk. apply (H (S k)). lia.
Qed.

(** A text in which the pattern matches nowhere is returned as it is. *)
Lemma scan_no_match : forall s,
    re.match_ code [] = None ->
    no_match_starts_in code s [] = true ->
    re.scan code tmpl 0 s = s.
Proof.
  intros s H0 H. rewrite <- (app_nil_r s) at 1.
  rewrite scan_prefix by exact H. simpl. rewrite H0. now rewrite app_nil_r.
Qed.

End Scan.

(** ** The general pattern *)

Lemma compile_general :
  re.compile fix_parquet_queries.pattern = Some general_code.
Proof. reflexivity. Qed.

Lemma new_content_general content :
  fix_parquet_queries.new_content content = Some (rewrite_general content).
Proof.
  unfold fix_parquet_queries.new_content, re.sub.
  now rewrite compile_general.
Qed.

Lemma no_backtick_app a b :
  no_backtick (a ++ b) = no_backtick a && no_backtick b.
Proof. apply forallb_app. Qed.

Lemma no_backtick_cons c s :
  no_backtick (c :: s) = negb (Ascii.eqb BACKTICK c) && no_backtick s.
Proof. reflexivity. Qed.

Lemma backtick_split : forall a x a' x',
    no_backtick a = true -> no_backtick a' = true ->
    a ++ BACKTICK :: x = a' ++ BACKTICK :: x' -> a = a' /\ x = x'.
Proof.
  induction a as [|c a IH]; intros x a' x' Ha Ha' E.
  - destruct a' as [|c' a']; simpl in *.
    + injection E as ->. auto.
    + injection E as <- _. simpl in Ha'. discriminate.
  - destruct a' as [|c' a']; simpl in *.
    + injection E as -> _. simpl in Ha. discriminate.
    + injection E as -> E.
      apply andb_true_iff in Ha as [_ Ha]. apply andb_true_iff in Ha' as [_ Ha'].
      destruct (IH _ _ _ Ha Ha' E) as [-> ->]. auto.
Qed.

Ltac lengths :=
  unfold call, patched_call in *;
  repeat (rewrite ?length_app in *; cbn [length] in * );
  simpl length in *; try lia.

Lemma denotes_general s res :
  denotes general_code s 0 [] res <->
  exists a b r,
    s = call (a ++ GUARD ++ b) ++ r /\
    no_backtick a = true /\ no_backtick b = true /\
    res = general_result (a ++ GUARD ++ b).
Proof.
  unfold general_code. cbn [app denotes]. split.
  - intros H.
    apply denotes_lits in H as (s1 & -> & H). cbn [app denotes] in H.
    destruct H as (a & s2 & -> & Ha & _ & H).
    apply denotes_lits in H as (s3 & -> & H). cbn [app denotes] in H.
    destruct H as (b & s4 & -> & Hb & _ & H).
    apply denotes_lits in H as (s5 & -> & H). cbn [app denotes] in H.
    rewrite <- (app_nil_r (lits ARGS)) in H.
    apply denotes_lits in H as (r & -> & H). cbn [denotes] in H.
    exists a, b, r. repeat split; try assumption.
    + unfold call. now rewrite <- !app_assoc.
    + subst res. unfold general_result, call. f_equal.
      * lengths.
      * do 2 f_equal. f_equal. lengths.
  - intros (a & b & r & -> & Ha & Hb & ->).
    apply denotes_lits. exists ((a ++ GUARD ++ b) ++ BACKTICK :: ARGS ++ r).
    split; [unfold call; now rewrite <- !app_assoc|]. cbn [app denotes].
    exists a, (GUARD ++ b ++ BACKTICK :: ARGS ++ r).
    split; [now rewrite <- !app_assoc|]. do 2 (split; [assumption || lia|]).
    apply denotes_lits. exists (b ++ BACKTICK :: ARGS ++ r).
    split; [reflexivity|]. cbn [app denotes].
    exists b, (BACKTICK :: ARGS ++ r).
    split; [reflexivity|]. do 2 (split; [assumption || lia|]).
    apply denotes_lits. exists (ARGS ++ r). split; [reflexivity|].
    cbn [app denotes]. rewrite <- (app_nil_r (lits ARGS)).
    apply denotes_lits. exists r. split; [reflexivity|].
    cbn [denotes]. unfold general_result, call. f_equal.
    + lengths.
    + do 2 f_equal. f_equal. lengths.
Qed.

Lemma firstn_length_app (A : Type) (a b : list A) :
  firstn (length a) (a ++ b) = a.
Proof.
  now rewrite firstn_app, Nat.sub_diag, firstn_all, firstn_O, app_nil_r.
Qed.

Lemma skipn_length_app (A : Type) (a b : list A) :
  skipn (length a) (a ++ b) = b.
Proof. now rewrite skipn_app, Nat.sub_diag, skipn_all. Qed.

Lemma call_app L r : call L ++ r = OPEN ++ L ++ BACKTICK :: ARGS ++ r.
Proof. unfold call. now rewrite <- !app_assoc. Qed.

Lemma patched_call_app L r :
  patched_call L ++ r = OPEN ++ L ++ BACKTICK :: NEW_ARGS ++ r.
Proof. unfold patched_call. now rewrite <- !app_assoc. Qed.

(** The pattern matches at a call whose literal has the guard, ... *)
Lemma match_general_call L r :
  no_backtick L = true -> contains GUARD L = true ->
  re.match_ general_code (call L ++ r) = Some (general_result L).
Proof.
  intros HL HG. apply exec_unambiguous.
  - apply contains_spec in HG as (a & b & ->). apply denotes_general.
    rewrite !no_backtick_app in HL.
    apply andb_true_iff in HL as [Ha HL]. apply andb_true_iff in HL as [_ Hb].
    now exists a, b, r.
  - intros res' H.
    apply denotes_general in H as (a & b & r' & E & Ha & Hb & ->).
    rewrite !call_app in E. apply app_inv_head in E.
    apply backtick_split in E as [-> _]; [reflexivity|assumption|].
    rewrite !no_backtick_app, Ha, Hb. reflexivity.
Qed.

(** ... and only there. *)
Lemma match_general_inv s res :
  re.match_ general_code s = Some res ->
  exists L r, s = call L ++ r /\ no_backtick L = true /\
              contains GUARD L = true /\ res = general_result L.
Proof.
  intros H. apply exec_sound, denotes_general in H.
  destruct H as (a & b & r & -> & Ha & Hb & ->).
  exists (a ++ GUARD ++ b), r. repeat split.
  - rewrite !no_backtick_app, Ha, Hb. reflexivity.
  - apply contains_spec. now exists a, b.
Qed.

Lemma expand_general s p :
  re.expand (re.parse_template fix_parquet_queries.replacement) s
            [(1, p); (0, 0)]
  = firstn p s ++ NEW_ARGS.
Proof.
  unfold re.expand. simpl. unfold re.group. simpl.
  rewrite Nat.sub_0_r. reflexivity.
Qed.

(** One step of the scan at a guarded call. *)
Lemma rewrite_general_call L r :
  no_backtick L = true -> contains GUARD L = true ->
  rewrite_general (call L ++ r) = patched_call L ++ rewrite_general r.
Proof.
  intros HL HG. unfold rewrite_general.
  rewrite (scan_match _ _ _ _ _ (match_general_call L r HL HG)) by (simpl; lengths).
  rewrite expand_general, skipn_length_app.
  replace (call L ++ r) with ((OPEN ++ L ++ [BACKTICK]) ++ ARGS ++ r)
    by (rewrite call_app, <- !app_assoc; reflexivity).
  rewrite firstn_length_app, patched_call_app, <- !app_assoc. reflexivity.
Qed.

(** One step of the scan anywhere else. *)
Lemma rewrite_general_copy c s :
  re.match_ general_code (c :: s) = None ->
  rewrite_general (c :: s) = c :: rewrite_general s.
Proof. apply scan_copy. Qed.

Lemma rewrite_general_prefix pre suf :
  no_match_starts_in general_code pre suf = true ->
  rewrite_general (pre ++ suf) = pre ++ rewrite_general suf.
Proof. apply scan_prefix. Qed.

(** ** Where the general pattern can match *)

Ltac norm :=
  repeat (progress (repeat rewrite <- app_assoc in *; cbn [app] in * )).

Lemma open_app x : OPEN ++ x = CALLEE ++ BACKTICK :: x.
Proof. reflexivity. Qed.

Lemma match_general_shape u res :
  re.match_ general_code u = Some res ->
  exists L r, u = CALLEE ++ BACKTICK :: L ++ BACKTICK :: ARGS ++ r /\
              no_backtick L = true /\ contains GUARD L = true.
Proof.
  intros H. apply match_general_inv in H as (L & r & -> & HL & HG & _).
  exists L, r. now rewrite call_app, open_app.
Qed.

Lemma match_general_call' L r :
  no_backtick L = true -> contains GUARD L = true ->
  re.match_ general_code (CALLEE ++ BACKTICK :: L ++ BACKTICK :: ARGS ++ r)
  = Some (general_result L).
Proof.
  intros HL HG. rewrite <- open_app, <- call_app.
  now apply match_general_call.
Qed.

(** In a match the first backtick comes right after [fmt.Sprintf(]. *)
Lemma match_first_backtick q y res :
  no_backtick q = true ->
  re.match_ general_code (q ++ BACKTICK :: y) = Some res -> q = CALLEE.
Proof.
  intros Hq H. apply match_general_shape in H as (L & r & E & _ & _).
  now apply backtick_split in E as [-> _].
Qed.

Lemma match_head c u res :
  re.match_ general_code (c :: u) = Some res -> c = "f"%char.
Proof.
  intros H. apply match_general_shape in H as (L & r & E & _ & _).
  now injection E as -> _.
Qed.

Lemma first_backtick s :
  no_backtick s = true \/
  exists s1 s2, s = s1 ++ BACKTICK :: s2 /\ no_backtick s1 = true.
Proof.
  induction s as [|c s IH]; [now left|].
  destruct (Ascii.eqb BACKTICK c) eqn:Ec.
  - right. apply Ascii.eqb_eq in Ec; subst c. now exists [], s.
  - destruct IH as [H|(s1 & s2 & -> & H)].
    + left. now rewrite no_backtick_cons, Ec.
    + right. exists (c :: s1), s2. split; [reflexivity|].
      now rewrite no_backtick_cons, Ec.
Qed.

(** A word without the character [c] that starts [s ++ c :: z] lies in [s]. *)
Lemma prefix_before (c : ascii) : forall A x s z,
    forallb (fun a => negb (Ascii.eqb c a)) A = true ->
    A ++ x = s ++ c :: z -> exists s', s = A ++ s'.
Proof.
  induction A as [|a A IH]; intros x s z HA E; [now exists s|].
  simpl in HA. apply andb_true_iff in HA as [Ha HA].
  destruct s as [|a' s]; simpl in E; injection E as -> E.
  - now rewrite Ascii.eqb_refl in Ha.
  - destruct (IH _ _ _ HA E) as [s' ->]. now exists s'.
Qed.

Lemma cons_eq_tail (A : Type) (c : A) (a b : list A) :
  c :: a = c :: b -> a = b.
Proof. now intros [= ->]. Qed.

Lemma app_same_length_nil (A : Type) (s w : list A) : s ++ w = w -> s = [].
Proof.
  intros E. apply (f_equal (@length A)) in E. rewrite length_app in E.
  destruct s; [reflexivity|simpl in E; lia].
Qed.

(** Adding the new argument after the closing backtick of a call creates no
    match that starts before that call. *)
Lemma match_after_insert s L r :
  no_backtick L = true ->
  re.match_ general_code (s ++ call L ++ r) = None ->
  re.match_ general_code (s ++ patched_call L ++ r) = None.
Proof.
  intros HL HN.
  destruct (re.match_ general_code (s ++ patched_call L ++ r)) as [res|] eqn:E;
    [exfalso|reflexivity].
  apply match_general_shape in E as (L' & r' & E & HL' & HG').
  rewrite patched_call_app, open_app in E. rewrite call_app, open_app in HN.
  destruct (first_backtick s) as [Hs|(s1 & s2 & -> & Hs1)].
  - rewrite app_assoc in E.
    apply backtick_split in E as [Es E];
      [|rewrite no_backtick_app, Hs; reflexivity|reflexivity].
    apply backtick_split in E as [_ E]; [|assumption|assumption].
    discriminate E.
  - norm. apply backtick_split in E as [-> E]; [|assumption|reflexivity].
    destruct (first_backtick s2) as [Hs2|(s3 & s4 & -> & Hs3)].
    + rewrite app_assoc in E.
      apply backtick_split in E as [<- E];
        [|rewrite no_backtick_app, Hs2; reflexivity|assumption].
      symmetry in E. apply prefix_before in E as [L2 ->]; [|reflexivity].
      norm. rewrite (app_assoc s2 CALLEE) in HN.
      rewrite match_general_call' in HN by assumption. discriminate.
    + norm. apply backtick_split in E as [<- E]; [|assumption|assumption].
      symmetry in E. change CALLEE with ("f"%char :: py "mt.Sprintf(") in E.
      cbn [app] in E. apply prefix_before in E as [s5 ->]; [|reflexivity].
      norm. rewrite match_general_call' in HN by assumption. discriminate.
Qed.

Lemma text_length_ind (A : Type) (P : list A -> Prop) :
  (forall t, (forall u, length u < length t -> P u) -> P t) ->
  forall t, P t.
Proof.
  intros step t. remember (length t) as n eqn:En.
  revert t En. induction n as [n IH] using lt_wf_ind.
  intros t ->. apply step. intros u Hu. exact (IH _ Hu u eq_refl).
Qed.

(** The three situations of the scan of the general pattern. *)
Lemma rewrite_general_cases t :
  t = [] \/
  (exists c t', t = c :: t' /\ re.match_ general_code t = None /\
                rewrite_general t = c :: rewrite_general t') \/
  (exists L r, t = call L ++ r /\ no_backtick L = true /\
               contains GUARD L = true /\
               rewrite_general t = patched_call L ++ rewrite_general r).
Proof.
  destruct t as [|c t']; [now left|right].
  destruct (re.match_ general_code (c :: t')) as [res|] eqn:E.
  - right. apply match_general_inv in E as (L & r & E & HL & HG & _).
    exists L, r. rewrite E. auto using rewrite_general_call.
  - left. exists c, t'. auto using rewrite_general_copy.
Qed.

Lemma length_call_app L r : length r < length (call L ++ r).
Proof. rewrite length_app. unfold call. lengths. Qed.

(** Rewriting the rest of the text creates no match that starts before it. *)
Lemma match_stable : forall t s,
    re.match_ general_code (s ++ t) = None ->
    re.match_ general_code (s ++ rewrite_general t) = None.
Proof.
  induction t as [t IH] using text_length_ind. intros s HN.
  destruct (rewrite_general_cases t)
    as [->|[(c & t' & -> & _ & ->)|(L & r & -> & HL & _ & ->)]].
  - exact HN.
  - change (s ++ c :: rewrite_general t')
      with (s ++ [c] ++ rewrite_general t').
    rewrite app_assoc. apply IH; [simpl; lia|].
    now rewrite <- app_assoc.
  - rewrite app_assoc. apply IH; [apply length_call_app|].
    rewrite <- app_assoc. now apply match_after_insert.
Qed.

Lemma no_match_starts_in_app code : forall a b suf,
    no_match_starts_in code (a ++ b) suf
    = no_match_starts_in code a (b ++ suf) && no_match_starts_in code b suf.
Proof.
  induction a as [|c a IH]; intros b suf; [reflexivity|].
  cbn [app no_match_starts_in]. rewrite <- app_assoc.
  destruct (re.match_ code (c :: a ++ b ++ suf)); [reflexivity|apply IH].
Qed.

Lemma no_match_starts_in_suffixes code : forall pre suf,
    (forall p s', pre = p ++ s' -> s' <> [] ->
                  re.match_ code (s' ++ suf) = None) ->
    no_match_starts_in code pre suf = true.
Proof.
  induction pre as [|c pre IH]; intros suf H; [reflexivity|].
  cbn [no_match_starts_in]. rewrite (H [] (c :: pre) eq_refl) by discriminate.
  apply IH. intros p s' -> Hs'. now apply (H (c :: p) s').
Qed.

(** A non-empty end of [a ++ b] is either a non-empty end of [a] followed
    by [b], or a non-empty end of [b]. *)
Lemma suffix_app (A : Type) (a b p s' : list A) :
  a ++ b = p ++ s' -> s' <> [] ->
  (exists a2, a = p ++ a2 /\ a2 <> [] /\ s' = a2 ++ b) \/
  (exists b1, p = a ++ b1 /\ b = b1 ++ s').
Proof.
  intros E Hs'. apply app_eq_app in E as [l [[-> ->]|[-> ->]]].
  - destruct l as [|x l].
    + right. exists []. rewrite !app_nil_r. auto.
    + left. exists (x :: l). repeat split. discriminate.
  - right. now exists l.
Qed.

Lemma no_backtick_suffix a1 a2 :
  no_backtick (a1 ++ a2) = true -> no_backtick a2 = true.
Proof.
  rewrite no_backtick_app. intros H. now apply andb_true_iff in H as [_ H].
Qed.

Lemma head_of_suffix (A : Type) (w p : list A) c s :
  w = p ++ c :: s -> In c w.
Proof. intros ->. apply in_elt. Qed.

(** A match that starts inside the text of a call
    [fmt.Sprintf(`L`T], where [T] has no [f], starts at the call or at a
    [fmt.Sprintf(] that ends its literal. *)
Lemma match_inside_call L T x p s' res :
  no_backtick L = true -> no_f T = true ->
  OPEN ++ L ++ BACKTICK :: T = p ++ s' -> s' <> [] ->
  re.match_ general_code (s' ++ x) = Some res ->
  p = [] \/ exists m, L = m ++ CALLEE /\ s' = CALLEE ++ BACKTICK :: T.
Proof.
  intros HL HT E Hs' M.
  change OPEN with (CALLEE ++ [BACKTICK]) in E. rewrite <- app_assoc in E.
  apply suffix_app in E as [(a2 & E1 & Ha2 & ->)|[b1 [-> E]]]; [| |assumption].
  - (* inside [fmt.Sprintf(] *)
    left. norm. apply match_first_backtick in M as ->;
      [|apply (no_backtick_suffix p); now rewrite <- E1].
    symmetry in E1. now apply app_same_length_nil in E1.
  - apply suffix_app in E as [(a2 & E1 & Ha2 & ->)|[b2 [-> E]]];
      [| |assumption].
    + (* at the opening backtick *)
      exfalso. destruct b1 as [|? b1]; cbn [app] in E1.
      * subst a2. cbn [app] in M. apply match_head in M. discriminate M.
      * injection E1 as _ E1. destruct b1; [|discriminate E1].
        cbn [app] in E1. now subst a2.
    + apply suffix_app in E as [(a2 & -> & Ha2 & ->)|[b3 [-> E]]];
        [| |assumption].
      * (* inside the literal *)
        right. exists b2. norm. apply match_first_backtick in M as ->;
          [|now apply (no_backtick_suffix b2)].
        now split.
      * (* at the closing backtick or after it *)
        exfalso. destruct s' as [|c s']; [contradiction|].
        apply head_of_suffix in E. cbn [app] in M. apply match_head in M.
        subst c. destruct E as [E|E]; [discriminate E|].
        unfold no_f in HT. rewrite forallb_forall in HT.
        specialize (HT _ E). discriminate HT.
Qed.

Lemma match_patched_call L x :
  no_backtick L = true -> re.match_ general_code (patched_call L ++ x) = None.
Proof.
  intros HL.
  destruct (re.match_ general_code (patched_call L ++ x)) as [res|] eqn:M;
    [exfalso|reflexivity].
  apply match_general_shape in M as (L' & r' & E & HL' & _).
  rewrite patched_call_app, open_app in E.
  apply app_inv_head in E. injection E as E.
  apply backtick_split in E as [_ E]; [|assumption|assumption].
  discriminate E.
Qed.

(** No match starts inside a rewritten call, unless its literal ends with
    [fmt.Sprintf(]. *)
Lemma no_match_inside_patched_call L x p s' :
  no_backtick L = true -> (forall m, L <> m ++ CALLEE) ->
  patched_call L = p ++ s' -> s' <> [] ->
  re.match_ general_code (s' ++ x) = None.
Proof.
  intros HL Hend E Hs'.
  destruct (re.match_ general_code (s' ++ x)) as [res|] eqn:M;
    [exfalso|reflexivity].
  destruct (match_inside_call L NEW_ARGS x p s' res HL eq_refl E Hs' M)
    as [->|(m & -> & _)].
  - cbn [app] in E. subst s'. rewrite match_patched_call in M by assumption.
    discriminate M.
  - now apply (Hend m).
Qed.

Lemma nested_free_literal L r m :
  contains NESTED (call L ++ r) = false -> L <> m ++ CALLEE.
Proof.
  intros H ->. rewrite call_app in H.
  assert (contains NESTED (OPEN ++ (m ++ CALLEE) ++ BACKTICK :: ARGS ++ r) = true)
    as C; [|now rewrite C in H].
  apply contains_spec. exists (OPEN ++ m), r. norm. reflexivity.
Qed.

Lemma nested_free_suffix a b :
  contains NESTED (a ++ b) = false -> contains NESTED b = false.
Proof.
  intros H. destruct (contains NESTED b) eqn:E; [|reflexivity].
  now rewrite (contains_app_r _ _ _ E) in H.
Qed.

(** After one pass the pattern matches nowhere. *)
Lemma rewrite_general_normal : forall t,
    contains NESTED t = false ->
    no_match_starts_in general_code (rewrite_general t) [] = true.
Proof.
  induction t as [t IH] using text_length_ind. intros HB.
  destruct (rewrite_general_cases t)
    as [->|[(c & t' & -> & HN & ->)|(L & r & -> & HL & _ & ->)]].
  - reflexivity.
  - cbn [no_match_starts_in]. rewrite app_nil_r.
    pose proof (match_stable t' [c] HN) as HN'. cbn [app] in HN'.
    rewrite HN'. apply IH; [simpl; lia|]. now apply (nested_free_suffix [c]).
  - rewrite no_match_starts_in_app. apply andb_true_iff. split.
    + apply no_match_starts_in_suffixes. intros p s' E Hs'.
      rewrite app_nil_r. apply match_stable.
      apply (no_match_inside_patched_call L r p s'); try assumption.
      intros m. now apply (nested_free_literal L r).
    + apply IH; [apply length_call_app|].
      now apply (nested_free_suffix (call L)).
Qed.

Lemma rewrite_general_fixpoint t :
  no_match_starts_in general_code t [] = true -> rewrite_general t = t.
Proof. intros H. apply scan_no_match; [reflexivity|exact H]. Qed.

Lemma rewrite_general_idempotent t :
  contains NESTED t = false ->
  rewrite_general (rewrite_general t) = rewrite_general t.
Proof.
  intros H. apply rewrite_general_fixpoint. now apply rewrite_general_normal.
Qed.

Lemma app_prefix_of_shorter (A : Type) (a b c d : list A) :
  a ++ b = c ++ d -> length a <= length c -> exists l, c = a ++ l.
Proof.
  intros E Hl. apply app_eq_app in E as [l [[-> ->]|[-> ->]]].
  - rewrite length_app in Hl. destruct l; [|simpl in Hl; lia].
    exists []. now rewrite !app_nil_r.
  - now exists l.
Qed.

(** A stretch of text [pre] is re-emitted as it is when every match that
    starts inside it puts its new argument after the end of [pre]. *)
Lemma rewrite_general_keeps_prefix : forall pre suf,
    (forall p s' L' r',
        pre = p ++ s' -> s' <> [] -> s' ++ suf = call L' ++ r' ->
        no_backtick L' = true -> contains GUARD L' = true ->
        length s' <= length (OPEN ++ L' ++ [BACKTICK])) ->
    exists out, rewrite_general (pre ++ suf) = pre ++ out.
Proof.
  induction pre as [|c pre IH]; intros suf H.
  - now exists (rewrite_general suf).
  - destruct (rewrite_general_cases ((c :: pre) ++ suf))
      as [E|[(c' & t' & E & _ & ->)|(L & r & E & HL & HG & ->)]].
    + discriminate E.
    + injection E as <- <-.
      destruct (IH suf) as [out ->]; [|now exists out].
      intros p s' L' r' -> Hs'. now apply (H (c :: p) s' L' r').
    + pose proof (H [] (c :: pre) L r eq_refl ltac:(discriminate) E HL HG) as B.
      replace (call L ++ r) with ((OPEN ++ L ++ [BACKTICK]) ++ ARGS ++ r) in E
        by (rewrite call_app; now norm).
      apply app_prefix_of_shorter in E as [l E]; [|exact B].
      exists (l ++ NEW_ARGS ++ rewrite_general r).
      rewrite patched_call_app.
      replace (OPEN ++ L ++ BACKTICK :: NEW_ARGS ++ rewrite_general r)
        with ((OPEN ++ L ++ [BACKTICK]) ++ NEW_ARGS ++ rewrite_general r)
        by now norm.
      rewrite E. now rewrite <- app_assoc.
Qed.

(** A call without the guard is re-emitted as it is. *)
Lemma rewrite_general_unguarded_call L post :
  no_backtick L = true -> contains GUARD L = false ->
  exists out, rewrite_general (call L ++ post) = call L ++ out.
Proof.
  intros HL HG. apply rewrite_general_keeps_prefix.
  intros p s' L' r' E Hs' E' HL' HG'.
  assert (re.match_ general_code (s' ++ post) = Some (general_result L')) as M
      by (rewrite E'; now apply match_general_call).
  destruct (match_inside_call L ARGS post p s' _ HL eq_refl E Hs' M)
    as [->|(m & -> & ->)].
  - cbn [app] in E. subst s'. rewrite !call_app in E'.
    apply app_inv_head in E'.
    apply backtick_split in E' as [-> _]; [|assumption|assumption].
    now rewrite HG' in HG.
  - rewrite call_app, open_app in E'. norm. apply app_inv_head in E'.
    apply cons_eq_tail in E'.
    apply prefix_before in E' as [l ->]; [|reflexivity].
    lengths.
Qed.

(** ** The general pattern: main theorems *)

(** C1.  A call [fmt.Sprintf(`L`, whereClause)] whose literal [L] has no
    backtick and contains [FROM %s], and which no earlier match overlaps
    (nothing matches in the text [pre] before it), is rewritten to
    [fmt.Sprintf(`L`, parquetSource, whereClause)]: the literal is re-emitted
    as it is, [parquetSource] is put right before [whereClause], and the
    rewriting goes on in the same way with the text after the call. *)
Theorem general_pattern_rewrites_guarded_call :
  forall pre L post,
    no_match_starts_in general_code pre (call L ++ post) = true ->
    no_backtick L = true ->
    contains GUARD L = true ->
    exists out,
      fix_parquet_queries.new_content post = Some out /\
      fix_parquet_queries.new_content (pre ++ call L ++ post)
      = Some (pre ++ patched_call L ++ out).
Proof.
  intros pre L post Hpre HL HG. exists (rewrite_general post).
  rewrite !new_content_general. split; [reflexivity|]. f_equal.
  rewrite rewrite_general_prefix by exact Hpre.
  now rewrite rewrite_general_call.
Qed.

Lemma general_pattern_rewrites_guarded_call_witness :
  exists out,
    fix_parquet_queries.new_content (py "; return") = Some out /\
    fix_parquet_queries.new_content
      (py "q := " ++ call (py "SELECT a FROM %s WHERE %s") ++ py "; return")
    = Some (py "q := " ++ patched_call (py "SELECT a FROM %s WHERE %s") ++ out).
Proof.
  apply (general_pattern_rewrites_guarded_call
           (py "q := ") (py "SELECT a FROM %s WHERE %s") (py "; return"));
    reflexivity.
Defined.

(** C4 fails as stated: the call below has a literal that ends with
    [fmt.Sprintf(]; the first pass rewrites that call, and the second pass
    then matches from the inner [fmt.Sprintf(] to the next backtick and
    rewrites again. *)
Lemma general_pattern_second_pass_differs :
  fix_parquet_queries.new_content
    (py "fmt.Sprintf(`FROM %s fmt.Sprintf(`, whereClause) FROM %s `, whereClause)")
  = Some (py "fmt.Sprintf(`FROM %s fmt.Sprintf(`, parquetSource, whereClause) FROM %s `, whereClause)")
  /\ fix_parquet_queries.new_content
    (py "fmt.Sprintf(`FROM %s fmt.Sprintf(`, parquetSource, whereClause) FROM %s `, whereClause)")
  = Some (py "fmt.Sprintf(`FROM %s fmt.Sprintf(`, parquetSource, whereClause) FROM %s `, parquetSource, whereClause)")
  /\ py "fmt.Sprintf(`FROM %s fmt.Sprintf(`, parquetSource, whereClause) FROM %s `, whereClause)"
     <> py "fmt.Sprintf(`FROM %s fmt.Sprintf(`, parquetSource, whereClause) FROM %s `, parquetSource, whereClause)".
Proof.
  split; [vm_compute; reflexivity|]. split; [vm_compute; reflexivity|].
  vm_compute. discriminate.
Qed.

(** C4, amended.  For every text that nowhere contains
    [fmt.Sprintf(`, whereClause)] (no literal ending with [fmt.Sprintf(] is
    closed right before the trailing argument), applying the general pattern
    twice gives the same text as applying it once. *)
Theorem general_pattern_idempotent :
  forall content,
    contains NESTED content = false ->
    exists once,
      fix_parquet_queries.new_content content = Some once /\
      fix_parquet_queries.new_content once = Some once.
Proof.
  intros content H. exists (rewrite_general content).
  rewrite !new_content_general. split; [reflexivity|]. f_equal.
  now apply rewrite_general_idempotent.
Qed.

Lemma general_pattern_idempotent_witness :
  exists once,
    fix_parquet_queries.new_content
      (py "q := fmt.Sprintf(`SELECT a FROM %s WHERE %s`, whereClause)")
    = Some once /\
    fix_parquet_queries.new_content once = Some once.
Proof.
  apply (general_pattern_idempotent
           (py "q := fmt.Sprintf(`SELECT a FROM %s WHERE %s`, whereClause)")).
  reflexivity.
Defined.

(** Where the scan arrives, the rewriting of a text is the rewriting of
    its two parts. *)
Lemma scan_arrives_skip code : forall pre k suf,
    scan_arrives code k pre suf = true ->
    k <= length pre /\ scan_arrives code 0 (skipn k pre) suf = true.
Proof.
  induction pre as [|c pre IH]; intros k suf H.
  - cbn [scan_arrives] in H. apply Nat.eqb_eq in H. subst k.
    split; [apply Nat.le_refl|reflexivity].
  - destruct k as [|k].
    + split; [apply Nat.le_0_l|exact H].
    + cbn [scan_arrives] in H. apply IH in H as [Hk H].
      split; [simpl; lia|exact H].
Qed.

(** What [scan_arrives] says of the scan: the output for [pre ++ suf] is
    some text for [pre] followed by the output for [suf]. *)
Lemma scan_arrives_scan code tmpl : forall pre k suf,
    scan_arrives code k pre suf = true ->
    exists out,
      re.scan code tmpl k (pre ++ suf) = out ++ re.scan code tmpl 0 suf.
Proof.
  induction pre as [|c pre IH]; intros k suf H.
  - cbn [scan_arrives] in H. apply Nat.eqb_eq in H. subst k. now exists [].
  - destruct k as [|k]; cbn [scan_arrives] in H.
    + change ((c :: pre) ++ suf) with (c :: pre ++ suf) in *.
      cbn [re.scan].
      destruct (re.match_ code (c :: pre ++ suf)) as [[[|e] mk]|].
      * destruct (IH 0 suf H) as [out ->].
        exists (re.expand tmpl (c :: pre ++ suf) mk ++ c :: out).
        now rewrite <- app_assoc.
      * destruct (IH e suf H) as [out ->].
        exists (re.expand tmpl (c :: pre ++ suf) mk ++ out).
        now rewrite <- app_assoc.
      * destruct (IH 0 suf H) as [out ->]. now exists (c :: out).
    + destruct (IH k suf H) as [out E]. exists out. exact E.
Qed.

(** A text in which no match starts is one that the scan passes. *)
Lemma no_match_arrives code : forall pre suf,
    no_match_starts_in code pre suf = true ->
    scan_arrives code 0 pre suf = true.
Proof.
  induction pre as [|c pre IH]; intros suf H; [reflexivity|].
  cbn [no_match_starts_in scan_arrives] in *.
  destruct (re.match_ code ((c :: pre) ++ suf)); [discriminate H|].
  now apply IH.
Qed.

Lemma match_general_app s suf :
  re.match_ general_code (s ++ suf) = None -> re.match_ general_code s = None.
Proof.
  intros H. destruct (re.match_ general_code s) as [res|] eqn:M;
    [exfalso|reflexivity].
  apply match_general_inv in M as (L & r & -> & HL & HG & _).
  rewrite <- app_assoc, (match_general_call L (r ++ suf) HL HG) in H.
  discriminate H.
Qed.

Lemma rewrite_general_nil : rewrite_general [] = [].
Proof. reflexivity. Qed.

Lemma rewrite_general_arrives : forall pre suf,
    scan_arrives general_code 0 pre suf = true ->
    rewrite_general (pre ++ suf) = rewrite_general pre ++ rewrite_general suf.
Proof.
  induction pre as [pre IH] using text_length_ind. intros suf H.
  destruct pre as [|c pre'].
  - rewrite rewrite_general_nil. reflexivity.
  - cbn [scan_arrives] in H.
    destruct (re.match_ general_code ((c :: pre') ++ suf)) as [[e mk]|] eqn:M.
    + pose proof M as M'.
      apply match_general_inv in M' as (L & r & E & HL & HG & R).
      apply (f_equal fst) in R. change (e = length (call L)) in R.
      rename R into He.
      destruct e as [|e']; [exfalso; unfold call in He; lengths|].
      apply scan_arrives_skip in H as [Hk H].
      symmetry in E.
      destruct (app_prefix_of_shorter _ _ _ _ _ E) as [l El];
        [rewrite <- He; simpl; lia|].
      assert (skipn e' pre' = l) as Es.
      { change (skipn e' pre') with (skipn (S e') (c :: pre')).
        rewrite El, He. apply skipn_length_app. }
      rewrite Es in H. rewrite El, <- app_assoc.
      rewrite (rewrite_general_call L (l ++ suf) HL HG).
      rewrite (rewrite_general_call L l HL HG).
      rewrite (IH l); [now rewrite <- app_assoc| |exact H].
      rewrite El. apply length_call_app.
    + pose proof (match_general_app _ _ M) as M'.
      change ((c :: pre') ++ suf) with (c :: pre' ++ suf) in M |- *.
      rewrite (rewrite_general_copy c (pre' ++ suf) M).
      rewrite (rewrite_general_copy c pre' M').
      rewrite (IH pre' (Nat.lt_succ_diag_r (length pre')) suf H).
      reflexivity.
Qed.

(** C5 fails as stated: a call whose literal does not contain [FROM %s] is
    changed when an earlier match runs into it.  In [overlapped_call] the
    match starts at the first [fmt.Sprintf(] and ends inside the literal of
    the call without the guard; in [three_literals], a Go statement whose
    only call has no guard in any raw string literal, the match runs from
    the [fmt.Sprintf(] at the end of the first literal into the third. *)
Lemma unguarded_call_inside_a_match_is_changed :
  (no_backtick overlapped_literal = true
   /\ contains GUARD overlapped_literal = false
   /\ fix_parquet_queries.new_content overlapped_call
      = Some (py "fmt.Sprintf(`FROM %s fmt.Sprintf(`, parquetSource, whereClause) x`, whereClause)")
   /\ contains (call overlapped_literal)
               (py "fmt.Sprintf(`FROM %s fmt.Sprintf(`, parquetSource, whereClause) x`, whereClause)")
      = false)
  /\ contains GUARD (py "a fmt.Sprintf(") = false
  /\ contains GUARD (py ", whereClause) b") = false
  /\ fix_parquet_queries.new_content three_literals
     = Some three_literals_rewritten
  /\ three_literals_rewritten <> three_literals.
Proof.
  repeat split; try reflexivity. intros E. discriminate E.
Qed.

(** C5.  A call [fmt.Sprintf(`L`, whereClause)] whose literal does not
    contain [FROM %s] is re-emitted byte for byte wherever the scan of
    [re.sub] arrives at it, that is, when no earlier match runs over its
    start: the text before it is rewritten as it is on its own, the call
    follows unchanged.  In the same way every stretch of text that the scan
    arrives at and in which the pattern does not match is copied, and a
    text without any match is returned unchanged. *)
Theorem general_pattern_passes_unguarded_through :
  (forall pre L post,
      scan_arrives general_code 0 pre (call L ++ post) = true ->
      no_backtick L = true ->
      contains GUARD L = false ->
      exists pre' out,
        fix_parquet_queries.new_content pre = Some pre' /\
        fix_parquet_queries.new_content (pre ++ call L ++ post)
        = Some (pre' ++ call L ++ out))
  /\ (forall pre mid post,
         scan_arrives general_code 0 pre (mid ++ post) = true ->
         no_match_starts_in general_code mid post = true ->
         exists pre' out,
           fix_parquet_queries.new_content pre = Some pre' /\
           fix_parquet_queries.new_content post = Some out /\
           fix_parquet_queries.new_content (pre ++ mid ++ post)
           = Some (pre' ++ mid ++ out))
  /\ (forall content,
         no_match_starts_in general_code content [] = true ->
         fix_parquet_queries.new_content content = Some content).
Proof.
  split; [|split].
  - intros pre L post Hpre HL HG.
    destruct (rewrite_general_unguarded_call L post HL HG) as [out E].
    exists (rewrite_general pre), out.
    split; [apply new_content_general|].
    rewrite (new_content_general (pre ++ call L ++ post)). apply f_equal.
    rewrite (rewrite_general_arrives pre (call L ++ post) Hpre), E.
    reflexivity.
  - intros pre mid post Hpre Hmid.
    exists (rewrite_general pre), (rewrite_general post).
    split; [apply new_content_general|].
    split; [apply new_content_general|].
    rewrite (new_content_general (pre ++ mid ++ post)). apply f_equal.
    rewrite (rewrite_general_arrives pre (mid ++ post) Hpre).
    rewrite (rewrite_general_prefix mid post Hmid). reflexivity.
  - intros content H. rewrite (new_content_general content). apply f_equal.
    now apply rewrite_general_fixpoint.
Qed.

Lemma general_pattern_passes_unguarded_through_witness :
  exists out,
    fix_parquet_queries.new_content
      (guarded_then_unguarded ++ call (py "SELECT count(*) WHERE %s")
                              ++ py "; return")
    = Some (py "a := " ++ patched_call (py "SELECT x FROM %s WHERE %s")
               ++ py "; n := "
               ++ call (py "SELECT count(*) WHERE %s") ++ out).
Proof.
  destruct (proj1 general_pattern_passes_unguarded_through
                  guarded_then_unguarded (py "SELECT count(*) WHERE %s")
                  (py "; return") eq_refl eq_refl eq_refl)
    as (pre' & out & E1 & E2).
  vm_compute in E1. injection E1 as <-.
  exists out. exact E2.
Defined.

(** ** The Structural Inserter: one iteration *)

Lemma skip_to_brace_first : forall rest j,
    skip_to_brace rest j = j + first_brace rest.
Proof.
  induction rest as [|l rest IH]; intros j; simpl.
  - lia.
  - destruct (has_brace l); [lia|]. rewrite IH. lia.
Qed.

Lemma find_is_target line :
  find (fun func_name => contains (marker func_name) line)
       functions_needing_fix = None <-> is_target line = false.
Proof.
  unfold is_target. generalize functions_needing_fix.
  induction l as [|n l IH]; simpl; [tauto|].
  destruct (contains (marker n) line); simpl; [split; discriminate|exact IH].
Qed.

Lemma body_step i lines : fst (body i lines) = step i lines.
Proof.
  unfold body, step, target_at, needs_binding, insertion_point.
  rewrite skip_to_brace_first.
  destruct (nth_error lines i) as [line|]; [|reflexivity].
  destruct (find _ functions_needing_fix) as [n|] eqn:F.
  - assert (is_target line = true) as ->.
    { destruct (is_target line) eqn:T; [reflexivity|].
      apply find_is_target in T. congruence. }
    cbn [andb].
    destruct (nth_error lines (i + 1 + first_brace (skipn (i + 1) lines) + 1));
      [|reflexivity].
    now destruct (negb (has_binding t)).
  - apply find_is_target in F. now rewrite F.
Qed.

Lemma length_list_insert (A : Type) j (x : A) l :
  length (list_insert j x l) = S (length l).
Proof.
  unfold list_insert. rewrite length_app. simpl.
  rewrite Nat.add_succ_r, <- length_app, firstn_skipn. reflexivity.
Qed.

Lemma list_insert_neq (A : Type) j (x : A) l : list_insert j x l <> l.
Proof.
  intros E. apply (f_equal (@length A)) in E.
  rewrite length_list_insert in E. lia.
Qed.

(** An iteration that leaves the buffer as it is prints nothing. *)
Lemma body_unchanged i lines :
  step i lines = lines -> body i lines = (lines, []).
Proof.
  rewrite <- body_step. unfold body.
  destruct (nth_error lines i) as [line|]; [|reflexivity].
  destruct (find _ functions_needing_fix) as [n|]; [|reflexivity].
  destruct (nth_error lines _) as [lj|]; [|reflexivity].
  destruct (negb (has_binding lj)); [|reflexivity].
  simpl. intros E. now apply list_insert_neq in E.
Qed.

Lemma step_cases i lines :
  step i lines = lines \/
  (target_at i lines = true /\
   needs_binding (insertion_point i lines) lines = true /\
   step i lines = list_insert (insertion_point i lines) binding_line lines).
Proof.
  unfold step. destruct (target_at i lines); [|now left].
  destruct (needs_binding _ lines); [right|left]; auto.
Qed.

Lemma needs_binding_lt j lines :
  needs_binding j lines = true -> j < length lines.
Proof.
  unfold needs_binding. destruct (nth_error lines j) eqn:E; [|discriminate].
  intros _. apply nth_error_Some. congruence.
Qed.

Lemma binding_line_facts :
  is_target binding_line = false /\ has_brace binding_line = false /\
  has_binding binding_line = true.
Proof. repeat split; reflexivity. Qed.

(** ** Facts about [list.insert] *)

Lemma list_insert_cons (A : Type) j (x a : A) l :
  list_insert (S j) x (a :: l) = a :: list_insert j x l.
Proof. reflexivity. Qed.

Lemma nth_error_insert_lt (A : Type) (x : A) : forall j l k,
    k < j -> j <= length l ->
    nth_error (list_insert j x l) k = nth_error l k.
Proof.
  induction j as [|j IH]; intros l k Hk Hj; [lia|].
  destruct l as [|a l]; [simpl in Hj; lia|]. rewrite list_insert_cons.
  destruct k as [|k]; [reflexivity|]. simpl in *. apply IH; lia.
Qed.

Lemma nth_error_insert_eq (A : Type) (x : A) : forall j l,
    j <= length l -> nth_error (list_insert j x l) j = Some x.
Proof.
  induction j as [|j IH]; intros l Hj; [reflexivity|].
  destruct l as [|a l]; [simpl in Hj; lia|]. rewrite list_insert_cons.
  simpl in *. apply IH. lia.
Qed.

Lemma skipn_insert (A : Type) (x : A) : forall k j l,
    k <= j -> j <= length l ->
    skipn k (list_insert j x l) = list_insert (j - k) x (skipn k l).
Proof.
  induction k as [|k IH]; intros j l Hk Hj.
  - now rewrite Nat.sub_0_r.
  - destruct j as [|j]; [lia|].
    destruct l as [|a l]; [simpl in Hj; lia|]. rewrite list_insert_cons.
    simpl in *. apply IH; lia.
Qed.

Lemma skipn_nth (A : Type) : forall i (l : list A) a,
    nth_error l i = Some a -> skipn i l = a :: skipn (S i) l.
Proof.
  induction i as [|i IH]; intros l a H; destruct l as [|b l];
    try discriminate H.
  - now injection H as ->.
  - simpl in H. now apply IH in H.
Qed.

(** ** The brace scan *)

Lemma first_brace_length rest : first_brace rest <= length rest.
Proof.
  induction rest as [|l rest IH]; simpl; [lia|].
  destruct (has_brace l); lia.
Qed.

Lemma first_brace_le : forall rest n l,
    nth_error rest n = Some l -> has_brace l = true -> first_brace rest <= n.
Proof.
  induction rest as [|a rest IH]; intros n l H B.
  - destruct n; discriminate H.
  - simpl. destruct (has_brace a) eqn:Ba; [lia|].
    destruct n as [|n]; simpl in H.
    + injection H as ->. congruence.
    + apply IH in H; [lia|assumption].
Qed.

Lemma first_brace_found : forall rest,
    first_brace rest < length rest ->
    exists l, nth_error rest (first_brace rest) = Some l /\ has_brace l = true.
Proof.
  induction rest as [|a rest IH]; simpl; intros H; [lia|].
  destruct (has_brace a) eqn:Ba.
  - now exists a.
  - apply IH. lia.
Qed.

Lemma first_brace_none : forall rest n l,
    n < first_brace rest -> nth_error rest n = Some l -> has_brace l = false.
Proof.
  intros rest n l Hn H. destruct (has_brace l) eqn:B; [|reflexivity].
  apply (first_brace_le rest n l H) in B. lia.
Qed.

(** A line without a brace, inserted after the first line with one, does
    not move that line. *)
Lemma first_brace_insert x : forall rest m,
    has_brace x = false -> first_brace rest < m -> m <= length rest ->
    first_brace (list_insert m x rest) = first_brace rest.
Proof.
  induction rest as [|a rest IH]; intros m Hx Hm Hl.
  - simpl in *. lia.
  - destruct m as [|m]; [lia|]. rewrite list_insert_cons. simpl in *.
    destruct (has_brace a); [reflexivity|]. f_equal. apply IH; [assumption|lia..].
Qed.

(** ** Counting the target lines *)

Lemma count_targets_app a b :
  count_targets (a ++ b) = count_targets a + count_targets b.
Proof. unfold count_targets. now rewrite filter_app, length_app. Qed.

Lemma count_targets_insert m rest :
  count_targets (list_insert m binding_line rest) = count_targets rest.
Proof.
  unfold list_insert. rewrite <- (firstn_skipn m rest) at 3.
  rewrite !count_targets_app. reflexivity.
Qed.

Lemma count_targets_skipn i lines l :
  nth_error lines i = Some l ->
  count_targets (skipn i lines)
  = (if is_target l then 1 else 0) + count_targets (skipn (S i) lines).
Proof.
  intros H. rewrite (skipn_nth _ _ _ _ H). unfold count_targets. simpl.
  now destruct (is_target l).
Qed.

Lemma insertion_point_lower i lines : i + 2 <= insertion_point i lines.
Proof. unfold insertion_point. lia. Qed.

(** ** The loop *)

Lemma while_loop_eq fuel i lines printed :
  while_loop fuel i lines printed
  = if i <? length lines then
      match fuel with
      | 0 => None
      | S fuel' =>
          let (lines', out) := body i lines in
          while_loop fuel' (S i) lines' (printed ++ out)
      end
    else Some (lines, printed).
Proof. destruct fuel; reflexivity. Qed.

(** Invariants of the loop: what holds at the start and is kept by every
    iteration holds of the result, at an index past its end. *)
Lemma while_loop_invariant (P : nat -> list text -> Prop) :
  (forall i lines, i < length lines -> P i lines -> P (S i) (step i lines)) ->
  forall fuel i lines printed out printed',
    while_loop fuel i lines printed = Some (out, printed') ->
    P i lines -> exists n, length out <= n /\ P n out.
Proof.
  intros Hstep. induction fuel as [|fuel IH]; intros i lines pr out pr' H HP;
    rewrite while_loop_eq in H; destruct (Nat.ltb_spec i (length lines)) as [Hi|Hi];
    try discriminate H.
  - injection H as <- <-. now exists i.
  - pose proof (body_step i lines) as Eb.
    destruct (body i lines) as [lines' o]. simpl in Eb. subst lines'.
    apply IH in H; [assumption|]. now apply Hstep.
  - injection H as <- <-. now exists i.
Qed.

Lemma step_measure i lines :
  i < length lines -> measure (S i) (step i lines) < measure i lines.
Proof.
  intros Hi. unfold measure.
  destruct (nth_error lines i) as [l|] eqn:El;
    [|apply nth_error_None in El; lia].
  rewrite (count_targets_skipn i lines l El).
  destruct (step_cases i lines) as [->|(T & N & ->)].
  - destruct (is_target l); lia.
  - unfold target_at in T. rewrite El in T. rewrite T.
    pose proof (insertion_point_lower i lines).
    apply needs_binding_lt in N.
    rewrite skipn_insert by lia.
    rewrite count_targets_insert, length_list_insert. lia.
Qed.

(** The loop ends: the fuel that [run] gives is enough. *)
Lemma while_loop_total : forall fuel i lines printed,
    measure i lines <= fuel ->
    exists out printed', while_loop fuel i lines printed = Some (out, printed').
Proof.
  induction fuel as [|fuel IH]; intros i lines pr Hm;
    rewrite while_loop_eq; destruct (Nat.ltb_spec i (length lines)) as [Hi|Hi];
    eauto.
  - unfold measure in Hm. lia.
  - pose proof (body_step i lines) as Eb.
    destruct (body i lines) as [lines' o]. simpl in Eb. subst lines'.
    apply IH. pose proof (step_measure i lines Hi). lia.
Qed.

Lemma measure_start lines : measure 0 lines <= 2 * length lines.
Proof.
  unfold measure, count_targets. simpl skipn.
  pose proof (filter_length_le is_target lines). lia.
Qed.

Lemma run_total lines :
  exists out printed, run lines = Some (out, printed).
Proof.
  unfold run.
  destruct (while_loop_total (2 * length lines) 0 lines [] (measure_start lines))
    as (out & pr & ->). eauto.
Qed.

Lemma written_total lines : exists out, written lines = Some out.
Proof.
  unfold written. destruct (run_total lines) as (out & pr & ->). now exists out.
Qed.

Lemma written_invariant (P : nat -> list text -> Prop) lines out :
  (forall i l, i < length l -> P i l -> P (S i) (step i l)) ->
  P 0 lines -> written lines = Some out ->
  exists n, length out <= n /\ P n out.
Proof.
  intros Hstep H0 W. unfold written, run in W.
  destruct (while_loop (2 * length lines) 0 lines []) as [[o pr]|] eqn:E;
    [|discriminate W].
  injection W as <-. exact (while_loop_invariant P Hstep _ _ _ _ _ _ E H0).
Qed.

(** ** Iterations that change nothing *)

(** After the binding has been inserted at [j], right after a line with a
    brace, an iteration at an earlier index [k] changes nothing, provided it
    changed nothing before or [j] is its own insertion point. *)
Lemma step_after_insert k j lines lb :
  k + 2 <= j -> j <= length lines ->
  nth_error lines (j - 1) = Some lb -> has_brace lb = true ->
  step k lines = lines \/ insertion_point k lines = j ->
  step k (list_insert j binding_line lines) = list_insert j binding_line lines.
Proof.
  intros Hk Hj Hb Hlb H.
  assert (first_brace (skipn (k + 1) lines) <= j - 1 - (k + 1)) as Hfb.
  { apply (first_brace_le _ _ lb); [|assumption].
    rewrite nth_error_skipn. rewrite <- Hb. f_equal. lia. }
  assert (insertion_point k (list_insert j binding_line lines)
          = insertion_point k lines) as Ej.
  { unfold insertion_point. rewrite skipn_insert by lia.
    rewrite first_brace_insert;
      [reflexivity|reflexivity|lia|rewrite length_skipn; lia]. }
  assert (target_at k (list_insert j binding_line lines) = target_at k lines)
    as Et.
  { unfold target_at. now rewrite nth_error_insert_lt by lia. }
  assert (insertion_point k lines <= j) as Hle
      by (unfold insertion_point; lia).
  unfold step at 1. rewrite Ej, Et.
  destruct (Nat.eq_dec (insertion_point k lines) j) as [E|E].
  - rewrite E. unfold needs_binding. rewrite nth_error_insert_eq by lia.
    now rewrite andb_false_r.
  - destruct H as [H|H]; [|contradiction].
    assert (needs_binding (insertion_point k lines)
                          (list_insert j binding_line lines)
            = needs_binding (insertion_point k lines) lines) as ->.
    { unfold needs_binding. now rewrite nth_error_insert_lt by lia. }
    unfold step in H.
    destruct (target_at k lines && needs_binding (insertion_point k lines) lines);
      [|reflexivity].
    now apply list_insert_neq in H.
Qed.

Lemma insertion_after_brace i lines :
  insertion_point i lines < length lines ->
  exists lb, nth_error lines (insertion_point i lines - 1) = Some lb /\
             has_brace lb = true.
Proof.
  unfold insertion_point. intros H.
  destruct (first_brace_found (skipn (i + 1) lines)) as (lb & E & B).
  - rewrite length_skipn. lia.
  - exists lb. split; [|assumption]. rewrite nth_error_skipn in E.
    rewrite <- E. f_equal. lia.
Qed.

Lemma step_stable i lines :
  stable_below i lines -> stable_below (S i) (step i lines).
Proof.
  intros H. destruct (step_cases i lines) as [E|(T & N & E)]; rewrite E.
  - intros k Hk. destruct (Nat.eq_dec k i) as [->|]; [assumption|].
    apply H. lia.
  - apply needs_binding_lt in N.
    destruct (insertion_after_brace i lines N) as (lb & Eb & B).
    pose proof (insertion_point_lower i lines).
    intros k Hk. apply (step_after_insert k _ lines lb); try assumption; try lia.
    destruct (Nat.eq_dec k i) as [->|]; [now right|]. left. apply H. lia.
Qed.

Lemma written_stable lines out :
  written lines = Some out -> stable_below (length out) out.
Proof.
  intros W.
  destruct (written_invariant stable_below lines out) as (n & Hn & S);
    try assumption.
  - intros i l _. apply step_stable.
  - intros k Hk. lia.
  - intros k Hk. apply S. lia.
Qed.

Lemma while_loop_fixed lines :
  stable_below (length lines) lines ->
  forall fuel i printed,
    length lines - i <= fuel ->
    while_loop fuel i lines printed = Some (lines, printed).
Proof.
  intros S. induction fuel as [|fuel IH]; intros i pr Hf;
    rewrite while_loop_eq; destruct (Nat.ltb_spec i (length lines)) as [Hi|Hi];
    try reflexivity.
  - lia.
  - rewrite (body_unchanged i lines (S i Hi)), app_nil_r. apply IH. lia.
Qed.

Lemma written_fixed lines :
  stable_below (length lines) lines -> written lines = Some lines.
Proof.
  intros S. unfold written, run.
  rewrite (while_loop_fixed lines S) by lia. reflexivity.
Qed.

Lemma step_no_target i lines :
  target_at i lines = false -> step i lines = lines.
Proof. unfold step. now intros ->. Qed.

Lemma target_at_in i lines :
  target_at i lines = true -> exists l, In l lines /\ is_target l = true.
Proof.
  unfold target_at. destruct (nth_error lines i) as [l|] eqn:E; [|discriminate].
  intros T. exists l. split; [|assumption]. eapply nth_error_In; eauto.
Qed.

(** ** Lines are only added *)

Lemma subsequence_refl (A : Type) (l : list A) : subsequence l l.
Proof. induction l; constructor; assumption. Qed.

Lemma subsequence_trans (A : Type) (a b c : list A) :
  subsequence a b -> subsequence b c -> subsequence a c.
Proof.
  intros H1 H2. revert a H1.
  induction H2 as [c|x b c H2 IH|x b c H2 IH]; intros a H1.
  - inversion H1. constructor.
  - inversion H1; subst.
    + constructor.
    + constructor. now apply IH.
    + apply sub_skip. now apply IH.
  - apply sub_skip. now apply IH.
Qed.

Lemma subsequence_insert (A : Type) (x : A) : forall j l,
    subsequence l (list_insert j x l).
Proof.
  induction j as [|j IH]; intros l.
  - apply sub_skip, subsequence_refl.
  - destruct l as [|a l]; [constructor|].
    rewrite list_insert_cons. constructor. apply IH.
Qed.

Lemma subsequence_length (A : Type) (a b : list A) :
  subsequence a b -> length a <= length b.
Proof. induction 1; simpl; lia. Qed.

Lemma step_subsequence i lines : subsequence lines (step i lines).
Proof.
  destruct (step_cases i lines) as [->|(_ & _ & ->)].
  - apply subsequence_refl.
  - apply subsequence_insert.
Qed.

Lemma step_count i lines :
  i < length lines ->
  length (step i lines) + count_targets (skipn (S i) (step i lines))
  <= length lines + count_targets (skipn i lines).
Proof.
  intros Hi. pose proof (step_measure i lines Hi) as M. unfold measure in M.
  pose proof (subsequence_length _ _ _ (step_subsequence i lines)). lia.
Qed.

Lemma first_brace_absent : forall rest,
    (forall n l, nth_error rest n = Some l -> has_brace l = false) ->
    first_brace rest = length rest.
Proof.
  induction rest as [|a rest IH]; intros H; [reflexivity|]. simpl.
  rewrite (H 0 a eq_refl). f_equal. apply IH.
  intros n l E. exact (H (S n) l E).
Qed.

Lemma written_subsequence lines out :
  written lines = Some out -> subsequence lines out.
Proof.
  intros W.
  destruct (written_invariant (fun _ l => subsequence lines l) lines out)
    as (n & _ & S); try assumption.
  - intros i l _ H. exact (subsequence_trans _ _ _ _ H (step_subsequence i l)).
  - apply subsequence_refl.
Qed.

Lemma written_count lines out :
  written lines = Some out ->
  length out <= length lines + count_targets lines.
Proof.
  intros W.
  destruct (written_invariant
              (fun i l => length l + count_targets (skipn i l)
                          <= length lines + count_targets lines) lines out)
    as (n & _ & S); try assumption.
  - intros i l Hi H. pose proof (step_count i l Hi). lia.
  - simpl. lia.
  - simpl in S. lia.
Qed.

Lemma no_target_stable lines :
  forallb (fun l => negb (is_target l)) lines = true ->
  forall i, stable_below i lines.
Proof.
  intros H i k _. apply step_no_target.
  destruct (target_at k lines) eqn:T; [|reflexivity].
  apply target_at_in in T as (l & Hin & T).
  rewrite forallb_forall in H. apply H in Hin. now rewrite T in Hin.
Qed.

(** When the first line with a brace after a target line [i] is a later
    line [b], and the line after [b] lacks the binding, the iteration at
    [i] inserts the binding right after line [b]. *)
Lemma step_inserts_after_brace i lines b lb lj :
  target_at i lines = true -> i < b ->
  nth_error lines b = Some lb -> has_brace lb = true ->
  (forall k l, i < k < b -> nth_error lines k = Some l -> has_brace l = false) ->
  nth_error lines (b + 1) = Some lj -> has_binding lj = false ->
  step i lines = list_insert (b + 1) binding_line lines.
Proof.
  intros T Hb Eb B Hnone Ej Bj.
  assert (first_brace (skipn (i + 1) lines) = b - (i + 1)) as F.
  { apply Nat.le_antisymm.
    - apply (first_brace_le _ _ lb); [|assumption].
      rewrite nth_error_skipn, <- Eb. f_equal. lia.
    - destruct (Nat.le_gt_cases (b - (i + 1)) (first_brace (skipn (i + 1) lines)))
        as [H|H]; [assumption|exfalso].
      destruct (first_brace_found (skipn (i + 1) lines)) as (l & E & Bl).
      + pose proof (first_brace_length (skipn (i + 1) lines)).
        assert (b < length lines) by (apply nth_error_Some; congruence).
        rewrite length_skipn in *. lia.
      + rewrite nth_error_skipn in E.
        rewrite (Hnone (i + 1 + first_brace (skipn (i + 1) lines)) l) in Bl;
          [discriminate Bl|lia|exact E]. }
  assert (insertion_point i lines = b + 1) as P
      by (unfold insertion_point; rewrite F; lia).
  unfold step, needs_binding. rewrite T, P, Ej, Bj. reflexivity.
Qed.

(** ** The Structural Inserter: main theorems *)

(** C2 does not hold of the code: the scan for the brace starts at the
    line after the matched one ([j = i + 1]), so a brace on the signature
    line itself is not seen.  On Scenario A, a one-line signature followed
    by a body without braces, nothing is inserted, while C2 asks for the
    binding as the new first line of the body; and when a later function
    follows, the binding lands in the body of that function. *)
Theorem brace_on_signature_line_is_missed :
  written scenario_A = Some scenario_A
  /\ Some scenario_A <> Some (list_insert 1 binding_line scenario_A)
  /\ written two_functions = Some (list_insert 4 binding_line two_functions).
Proof. split; [reflexivity|]. split; [discriminate|reflexivity]. Qed.

(** C3.  An iteration that finds the binding at its insertion point
    inserts nothing, and running the Structural Inserter on its own output
    changes nothing: the second run writes back exactly the lines it
    read. *)
Theorem inserter_idempotent :
  (forall lines i lj,
      nth_error lines (insertion_point i lines) = Some lj ->
      has_binding lj = true ->
      body i lines = (lines, []))
  /\ (forall lines,
         exists out, written lines = Some out /\ written out = Some out).
Proof.
  split.
  - intros lines i lj E B. apply body_unchanged. unfold step, needs_binding.
    rewrite E, B. now rewrite andb_false_r.
  - intros lines. destruct (written_total lines) as [out W]. exists out.
    split; [assumption|]. apply written_fixed.
    now apply (written_stable lines).
Qed.

Lemma inserter_idempotent_witness :
  body 0 patched_function = (patched_function, []).
Proof.
  apply (proj1 inserter_idempotent patched_function 0 binding_line);
    reflexivity.
Defined.

(** C6 fails as stated: no line of this buffer defines a function whose
    name is in the target set (its only function is [GetProjectsByID]), and
    yet a binding is inserted into it, because the marker of [GetProjects]
    is a substring of the signature line. *)
Lemma inserter_matches_longer_name :
  forallb (fun line =>
             forallb (fun func_name => negb (defines func_name line))
                     functions_needing_fix)
          longer_name_buffer = true
  /\ written longer_name_buffer
     = Some (list_insert 2 binding_line longer_name_buffer)
  /\ list_insert 2 binding_line longer_name_buffer <> longer_name_buffer.
Proof. repeat split. apply list_insert_neq. Qed.

(** C6, amended.  In one run the number of inserted lines is at most the
    number of lines that contain the definition marker
    [func (r *eventRepository) <name>] of a target name; a line without the
    text [func (r *eventRepository) ] is never such a line, whatever names
    it mentions; and a buffer without any such line is written back
    unchanged. *)
Theorem inserter_inserts_once_per_marker_line :
  (forall lines,
      exists out, written lines = Some out /\
                  length out <= length lines + count_targets lines)
  /\ (forall line,
         contains (py "func (r *eventRepository) ") line = false ->
         is_target line = false)
  /\ (forall lines,
         forallb (fun l => negb (is_target l)) lines = true ->
         written lines = Some lines).
Proof.
  split; [|split].
  - intros lines. destruct (written_total lines) as [out W]. exists out.
    split; [assumption|]. now apply written_count.
  - intros line H. unfold is_target.
    destruct (existsb _ functions_needing_fix) eqn:E; [|reflexivity].
    apply existsb_exists in E as (n & _ & C).
    apply contains_spec in C as (a & b & ->). unfold marker in H.
    rewrite <- app_assoc in H.
    assert (contains (py "func (r *eventRepository) ")
                     (a ++ py "func (r *eventRepository) " ++ n ++ b) = true)
      as C; [|now rewrite C in H].
    apply contains_spec. now exists a, (n ++ b).
  - intros lines H. apply written_fixed. now apply no_target_stable.
Qed.

Lemma inserter_inserts_once_per_marker_line_witness :
  is_target ([TAB] ++ py "return r.GetProjects(ctx) // GetChannels" ++ [NEWLINE])
  = false
  /\ written [ py "func helper() {" ++ [NEWLINE];
               [TAB] ++ py "return r.GetProjects(ctx) // GetChannels" ++ [NEWLINE];
               py "}" ++ [NEWLINE] ]
     = Some [ py "func helper() {" ++ [NEWLINE];
              [TAB] ++ py "return r.GetProjects(ctx) // GetChannels" ++ [NEWLINE];
              py "}" ++ [NEWLINE] ].
Proof.
  split.
  - apply (proj1 (proj2 inserter_inserts_once_per_marker_line)). reflexivity.
  - apply (proj2 (proj2 inserter_inserts_once_per_marker_line)). reflexivity.
Defined.

(** C10.  The lines written back contain every line that was read,
    unchanged and in the same order: the output is a supersequence of the
    input, at least as long. *)
Theorem inserter_only_adds_lines :
  forall lines,
    exists out, written lines = Some out /\
                subsequence lines out /\ length lines <= length out.
Proof.
  intros lines. destruct (written_total lines) as [out W]. exists out.
  pose proof (written_subsequence lines out W) as S.
  repeat split; try assumption. now apply subsequence_length.
Qed.

(** ** The exception pattern *)

Lemma compile_exception :
  re.compile fix_sprintf.pattern = Some exception_code.
Proof. vm_compute. reflexivity. Qed.

Lemma new_content_exception content :
  fix_sprintf.new_content content = Some (rewrite_exception content).
Proof.
  unfold fix_sprintf.new_content, re.sub. now rewrite compile_exception.
Qed.

Lemma blank_spec w :
  blank w = true <-> forallb isspace w = true /\ 1 <= length w.
Proof.
  destruct w as [|c w]; simpl.
  - split; [discriminate|intros [_ H]; lia].
  - split; [intros H; split; [assumption|lia]|now intros [H _]].
Qed.

Lemma denotes_spaces code s pos mk res :
  denotes (SPACES :: code) s pos mk res <->
  exists w r, s = w ++ r /\ blank w = true /\
              denotes code r (pos + length w) mk res.
Proof.
  cbn [denotes SPACES]. split.
  - intros (w & r & -> & Hw & Hn & H). exists w, r.
    repeat split; [|assumption]. apply blank_spec. now split.
  - intros (w & r & -> & Hw & H). apply blank_spec in Hw as [Hw Hn].
    now exists w, r.
Qed.

Ltac step_lits H :=
  apply denotes_lits in H; destruct H as (? & -> & H); cbn [app] in H.

Ltac step_spaces H w Hw :=
  apply denotes_spaces in H; destruct H as (w & ? & -> & Hw & H).

Ltac result_eq :=
  apply f_equal2; [lengths|];
  repeat (first [ reflexivity
                | apply f_equal2; [apply f_equal2; [reflexivity|lengths]|] ]).

Lemma denotes_exception s res :
  denotes exception_code s 0 [] res <->
  exists F r, Fragment F /\ s = F ++ BACKTICK :: ARGS2 ++ r /\
              res = exception_result F.
Proof.
  unfold exception_code. cbn [app denotes]. split.
  - intros H.
    step_lits H. step_spaces H w1 H1. step_lits H. step_spaces H w2 H2.
    step_lits H. step_spaces H w3 H3. step_lits H. step_spaces H w4 H4.
    step_lits H. step_spaces H w5 H5. step_lits H. step_spaces H w6 H6.
    step_lits H. cbn [denotes] in H.
    step_lits H. cbn [denotes] in H. step_lits H. cbn [denotes] in H.
    step_lits H. cbn [denotes] in H. step_lits H. cbn [denotes] in H.
    rewrite <- (app_nil_r (lits (py ")"))) in H.
    apply denotes_lits in H. destruct H as (r & -> & H). cbn [denotes] in H.
    exists (month_query w1 w2 w3 w4 w5 w6), r. split; [|split].
    + now constructor.
    + unfold month_query. norm. reflexivity.
    + subst res. unfold exception_result, month_query. result_eq.
  - intros (F & r & HF & -> & ->). destruct HF as [w1 w2 w3 w4 w5 w6 H1 H2 H3 H4 H5 H6].
    unfold month_query. norm.
    apply denotes_lits; eexists; split; [reflexivity|].
    apply denotes_spaces; exists w1; eexists; split; [reflexivity|split; [assumption|]].
    apply denotes_lits; eexists; split; [reflexivity|].
    apply denotes_spaces; exists w2; eexists; split; [reflexivity|split; [assumption|]].
    apply denotes_lits; eexists; split; [reflexivity|].
    apply denotes_spaces; exists w3; eexists; split; [reflexivity|split; [assumption|]].
    apply denotes_lits; eexists; split; [reflexivity|].
    apply denotes_spaces; exists w4; eexists; split; [reflexivity|split; [assumption|]].
    apply denotes_lits; eexists; split; [reflexivity|].
    apply denotes_spaces; exists w5; eexists; split; [reflexivity|split; [assumption|]].
    apply denotes_lits; eexists; split; [reflexivity|].
    apply denotes_spaces; exists w6; eexists; split; [reflexivity|split; [assumption|]].
    apply denotes_lits; eexists; split; [reflexivity|]. cbn [app denotes].
    apply denotes_lits; eexists; split; [reflexivity|]. cbn [app denotes].
    apply denotes_lits; eexists; split; [reflexivity|]. cbn [app denotes].
    apply denotes_lits; eexists; split; [reflexivity|]. cbn [app denotes].
    apply denotes_lits; eexists; split; [reflexivity|]. cbn [app denotes].
    rewrite <- (app_nil_r (lits (py ")"))).
    apply denotes_lits; exists r; split; [reflexivity|]. cbn [denotes].
    unfold exception_result, month_query. result_eq.
Qed.

Lemma isspace_not_backtick c :
  isspace c = true -> negb (Ascii.eqb BACKTICK c) = true.
Proof.
  intros H. destruct (Ascii.eqb_spec BACKTICK c) as [<-|]; [|reflexivity].
  discriminate H.
Qed.

Lemma blank_no_backtick w : blank w = true -> no_backtick w = true.
Proof.
  intros H. apply blank_spec in H as [H _]. unfold no_backtick.
  rewrite forallb_forall in *. intros c Hc. apply isspace_not_backtick. auto.
Qed.

Lemma fragment_no_backtick F : Fragment F -> no_backtick F = true.
Proof.
  intros [w1 w2 w3 w4 w5 w6 H1 H2 H3 H4 H5 H6]. unfold month_query.
  rewrite !no_backtick_app.
  rewrite (blank_no_backtick _ H1), (blank_no_backtick _ H2),
    (blank_no_backtick _ H3), (blank_no_backtick _ H4),
    (blank_no_backtick _ H5), (blank_no_backtick _ H6).
  reflexivity.
Qed.

Lemma nonspace_app a b : nonspace (a ++ b) = nonspace a + nonspace b.
Proof. unfold nonspace. now rewrite filter_app, length_app. Qed.

Lemma blank_nonspace w : blank w = true -> nonspace w = 0.
Proof.
  intros H. apply blank_spec in H as [H _]. unfold nonspace.
  induction w as [|c w IH]; [reflexivity|]. simpl in *.
  apply andb_true_iff in H as [Hc H]. rewrite Hc. simpl. now apply IH.
Qed.

(** All fragments have the same characters apart from white space. *)
Lemma fragment_nonspace F :
  Fragment F -> nonspace F = nonspace (K0 ++ K1 ++ K2 ++ K3 ++ K4 ++ K5).
Proof.
  intros [w1 w2 w3 w4 w5 w6 H1 H2 H3 H4 H5 H6]. unfold month_query.
  rewrite !nonspace_app.
  rewrite (blank_nonspace _ H1), (blank_nonspace _ H2),
    (blank_nonspace _ H3), (blank_nonspace _ H4),
    (blank_nonspace _ H5), (blank_nonspace _ H6).
  lia.
Qed.

Lemma fragment_head F : Fragment F -> exists F', F = "s"%char :: F'.
Proof. intros [w1 w2 w3 w4 w5 w6 _ _ _ _ _ _]. eexists. reflexivity. Qed.

Lemma fragment_last F :
  Fragment F -> exists F' c, F = F' ++ [c] /\ isspace c = true.
Proof.
  intros [w1 w2 w3 w4 w5 w6 _ _ _ _ _ H6].
  destruct (exists_last (l := w6)) as (w & c & ->).
  { intros ->. discriminate H6. }
  apply blank_spec in H6 as [H6 _]. rewrite forallb_app in H6.
  apply andb_true_iff in H6 as [_ H6]. simpl in H6. rewrite andb_true_r in H6.
  exists (K0 ++ w1 ++ K1 ++ w2 ++ K2 ++ w3 ++ K3 ++ w4 ++ K4 ++ w5 ++ K5 ++ w), c.
  split; [|assumption]. unfold month_query. norm. reflexivity.
Qed.

(** The pattern matches at a fragment followed by the two arguments, ... *)
Lemma match_exception_fragment F r :
  Fragment F ->
  re.match_ exception_code (F ++ BACKTICK :: ARGS2 ++ r)
  = Some (exception_result F).
Proof.
  intros HF. apply exec_unambiguous.
  - apply denotes_exception. now exists F, r.
  - intros res' H. apply denotes_exception in H as (F' & r' & HF' & E & ->).
    apply backtick_split in E as [-> _]; auto using fragment_no_backtick.
Qed.

(** ... and only there. *)
Lemma match_exception_inv s res :
  re.match_ exception_code s = Some res ->
  exists F r, Fragment F /\ s = F ++ BACKTICK :: ARGS2 ++ r.
Proof.
  intros H. apply exec_sound, denotes_exception in H.
  destruct H as (F & r & HF & -> & _). now exists F, r.
Qed.

Lemma skipn_length_plus (A : Type) (a b : list A) k :
  skipn (length a + k) (a ++ b) = skipn k b.
Proof.
  rewrite skipn_app, skipn_all2 by lia.
  replace (length a + k - length a) with k by lia. reflexivity.
Qed.

Lemma firstn_length_plus (A : Type) (a b : list A) k :
  firstn (length a + k) (a ++ b) = a ++ firstn k b.
Proof.
  rewrite firstn_app, firstn_all2 by lia.
  replace (length a + k - length a) with k by lia. reflexivity.
Qed.

Lemma expand_exception F r :
  re.expand (re.parse_template fix_sprintf.replacement)
            (F ++ BACKTICK :: ARGS2 ++ r) (snd (exception_result F))
  = F ++ BACKTICK :: NEW_ARGS2.
Proof.
  unfold re.expand, exception_result. simpl. unfold re.group. simpl.
  rewrite Nat.sub_0_r.
  replace (length F + 15 - (length F + 3)) with 12 by lia.
  replace (length F + 28 - (length F + 17)) with 11 by lia.
  rewrite firstn_length_plus, !skipn_length_plus. simpl.
  rewrite <- app_assoc. reflexivity.
Qed.

(** One step of the scan at a fragment followed by the two arguments. *)
Lemma rewrite_exception_fragment F r :
  Fragment F ->
  rewrite_exception (F ++ BACKTICK :: ARGS2 ++ r)
  = F ++ BACKTICK :: NEW_ARGS2 ++ rewrite_exception r.
Proof.
  intros HF. unfold rewrite_exception.
  rewrite (scan_match _ _ _ _ _ (match_exception_fragment F r HF))
    by (simpl; lia).
  change (re.expand _ _ _ ++ _)
    with (re.expand (re.parse_template fix_sprintf.replacement)
                    (F ++ BACKTICK :: ARGS2 ++ r) (snd (exception_result F))
          ++ re.scan exception_code (re.parse_template fix_sprintf.replacement) 0
               (skipn (length F + 29) (F ++ BACKTICK :: ARGS2 ++ r))).
  rewrite expand_exception, skipn_length_plus. simpl skipn.
  rewrite <- app_assoc. reflexivity.
Qed.

(** In a literal that ends with a fragment, before the fragment, the
    exception pattern does not match. *)
Lemma no_exception_match_before A F r p s' :
  no_backtick A = true -> Fragment F ->
  OPEN ++ A = p ++ s' -> s' <> [] ->
  re.match_ exception_code (s' ++ F ++ BACKTICK :: ARGS2 ++ r) = None.
Proof.
  intros HA HF E Hs'.
  destruct (re.match_ exception_code (s' ++ F ++ BACKTICK :: ARGS2 ++ r))
    as [res|] eqn:M; [exfalso|reflexivity].
  apply match_exception_inv in M as (F' & r' & HF' & M).
  pose proof (fragment_no_backtick _ HF) as BF.
  pose proof (fragment_no_backtick _ HF') as BF'.
  destruct (fragment_head _ HF') as [F'' EF'].
  change OPEN with (CALLEE ++ [BACKTICK]) in E. rewrite <- app_assoc in E.
  apply suffix_app in E as [(a2 & E1 & Ha2 & ->)|[b1 [-> E]]]; [| |assumption].
  - (* from inside [fmt.Sprintf(] *)
    norm. apply backtick_split in M as [<- _];
      [| apply (no_backtick_suffix p); now rewrite <- E1 | assumption].
    subst a2. apply head_of_suffix in E1. cbv in E1. intuition discriminate.
  - apply suffix_app in E as [(a2 & E1 & Ha2 & ->)|[b2 [-> E]]];
      [| |assumption].
    + (* from the opening backtick *)
      destruct b1 as [|? b1]; cbn [app] in E1.
      * subst a2 F'. cbn [app] in M. discriminate M.
      * injection E1 as _ E1. destruct b1; [|discriminate E1].
        cbn [app] in E1. now subst a2.
    + (* from inside the literal *)
      subst A. rewrite app_assoc in M.
      apply backtick_split in M as [<- _];
        [| rewrite no_backtick_app, (no_backtick_suffix _ _ HA), BF; reflexivity
         | assumption ].
      pose proof (fragment_nonspace _ HF') as N'.
      rewrite nonspace_app, (fragment_nonspace _ HF) in N'.
      destruct s' as [|c s']; [contradiction|].
      injection EF' as -> _. unfold nonspace in N'. simpl in N'. lia.
Qed.

Lemma rewrite_exception_call2 A F r :
  no_backtick A = true -> Fragment F ->
  rewrite_exception (call2 (A ++ F) ++ r)
  = patched_call2 (A ++ F) ++ rewrite_exception r.
Proof.
  intros HA HF. unfold call2, patched_call2, rewrite_exception.
  replace ((OPEN ++ (A ++ F) ++ BACKTICK :: ARGS2) ++ r)
    with ((OPEN ++ A) ++ F ++ BACKTICK :: ARGS2 ++ r) by now norm.
  rewrite scan_prefix.
  - fold (rewrite_exception (F ++ BACKTICK :: ARGS2 ++ r)).
    rewrite rewrite_exception_fragment by assumption. now norm.
  - apply no_match_starts_in_suffixes. intros p s' E Hs'.
    now apply (no_exception_match_before A F r p s').
Qed.

Lemma fragment_not_callee_end A F m : Fragment F -> A ++ F <> m ++ CALLEE.
Proof.
  intros HF E. destruct (fragment_last _ HF) as (F' & c & -> & Hc).
  change CALLEE with (py "fmt.Sprintf" ++ ["("%char]) in E.
  rewrite !app_assoc in E. apply app_inj_tail in E as [_ ->].
  discriminate Hc.
Qed.

(** The general pattern matches nowhere inside a call whose arguments do
    not start with [, whereClause)] and whose literal does not end with
    [fmt.Sprintf(]. *)
Lemma no_general_match_inside L T x p s' :
  no_backtick L = true -> no_f T = true ->
  (forall m, L <> m ++ CALLEE) -> startswith ARGS (T ++ x) = false ->
  OPEN ++ L ++ BACKTICK :: T = p ++ s' -> s' <> [] ->
  re.match_ general_code (s' ++ x) = None.
Proof.
  intros HL HT Hend HS E Hs'.
  destruct (re.match_ general_code (s' ++ x)) as [res|] eqn:M;
    [exfalso|reflexivity].
  destruct (match_inside_call L T x p s' res HL HT E Hs' M)
    as [->|(m & -> & _)]; [|now apply (Hend m)].
  cbn [app] in E. subst s'.
  apply match_general_shape in M as (L' & r' & M & HL' & _).
  rewrite open_app in M. norm. apply app_inv_head in M.
  apply cons_eq_tail in M.
  apply backtick_split in M as [_ M]; [|assumption|assumption].
  assert (startswith ARGS (T ++ x) = true) as C; [|now rewrite C in HS].
  apply startswith_spec. now exists r'.
Qed.

Lemma rewrite_general_skips L T r :
  no_backtick L = true -> no_f T = true ->
  (forall m, L <> m ++ CALLEE) ->
  (forall x, startswith ARGS (T ++ x) = false) ->
  rewrite_general ((OPEN ++ L ++ BACKTICK :: T) ++ r)
  = (OPEN ++ L ++ BACKTICK :: T) ++ rewrite_general r.
Proof.
  intros HL HT Hend HS. apply rewrite_general_prefix.
  apply no_match_starts_in_suffixes. intros p s' E Hs'.
  now apply (no_general_match_inside L T r p s').
Qed.

Lemma rewrite_general_call2 A F r :
  no_backtick A = true -> Fragment F ->
  rewrite_general (call2 (A ++ F) ++ r) = call2 (A ++ F) ++ rewrite_general r.
Proof.
  intros HA HF. apply rewrite_general_skips.
  - now rewrite no_backtick_app, HA, fragment_no_backtick.
  - reflexivity.
  - intros m. now apply fragment_not_callee_end.
  - reflexivity.
Qed.

Lemma rewrite_general_patched_call2 A F r :
  no_backtick A = true -> Fragment F ->
  rewrite_general (patched_call2 (A ++ F) ++ r)
  = patched_call2 (A ++ F) ++ rewrite_general r.
Proof.
  intros HA HF. apply rewrite_general_skips.
  - now rewrite no_backtick_app, HA, fragment_no_backtick.
  - reflexivity.
  - intros m. now apply fragment_not_callee_end.
  - reflexivity.
Qed.

Lemma no_backtick_mid X Y : no_backtick (X ++ BACKTICK :: Y) = false.
Proof.
  rewrite no_backtick_app, no_backtick_cons, Ascii.eqb_refl.
  apply andb_false_r.
Qed.

(** When the closing backtick is not followed by exactly
    [, whereClause)], the general pattern matches nowhere in the call. *)
Lemma general_exact_args L tail :
  no_backtick L = true -> no_backtick tail = true ->
  startswith ARGS tail = false ->
  no_match_starts_in general_code (OPEN ++ L ++ BACKTICK :: tail) [] = true.
Proof.
  intros HL HT HS. apply no_match_starts_in_suffixes. intros p s' E _.
  rewrite app_nil_r.
  destruct (re.match_ general_code s') as [res|] eqn:M; [exfalso|reflexivity].
  apply match_general_shape in M as (L' & r' & -> & HL' & _).
  rewrite open_app in E.
  assert (forall r, tail <> ARGS ++ r) as HS'.
  { intros r ->. now rewrite startswith_app in HS. }
  destruct (first_backtick p) as [Hp|(p1 & p2 & -> & Hp1)].
  - rewrite app_assoc in E.
    apply backtick_split in E as [_ E];
      [|reflexivity|rewrite no_backtick_app, Hp; reflexivity].
    apply backtick_split in E as [_ E]; [|assumption|assumption].
    now apply (HS' r').
  - norm. apply backtick_split in E as [_ E]; [|reflexivity|assumption].
    destruct (first_backtick p2) as [Hp2|(p3 & p4 & -> & Hp3)].
    + rewrite app_assoc in E.
      apply backtick_split in E as [_ ->];
        [|assumption|rewrite no_backtick_app, Hp2; reflexivity].
      now rewrite no_backtick_mid in HT.
    + norm. apply backtick_split in E as [_ ->]; [|assumption|assumption].
      rewrite app_assoc in HT. now rewrite no_backtick_mid in HT.
Qed.

(** The same for the exception pattern and [, selectClause, whereClause)]. *)
Lemma exception_exact_args A F tail :
  no_backtick A = true -> Fragment F -> no_backtick tail = true ->
  startswith ARGS2 tail = false ->
  no_match_starts_in exception_code (OPEN ++ A ++ F ++ BACKTICK :: tail) []
  = true.
Proof.
  intros HA HF HT HS. apply no_match_starts_in_suffixes. intros p s' E _.
  rewrite app_nil_r.
  destruct (re.match_ exception_code s') as [res|] eqn:M; [exfalso|reflexivity].
  apply match_exception_inv in M as (F' & r' & HF' & ->).
  pose proof (fragment_no_backtick _ HF) as BF.
  pose proof (fragment_no_backtick _ HF') as BF'.
  rewrite open_app in E.
  assert (forall r, tail <> ARGS2 ++ r) as HS'.
  { intros r ->. now rewrite startswith_app in HS. }
  assert (no_backtick (A ++ F) = true) as BAF
      by now rewrite no_backtick_app, HA, BF.
  rewrite (app_assoc A F) in E.
  destruct (first_backtick p) as [Hp|(p1 & p2 & -> & Hp1)].
  - rewrite (app_assoc p F') in E.
    apply backtick_split in E as [E _];
      [|reflexivity|rewrite no_backtick_app, Hp, BF'; reflexivity].
    destruct (fragment_head _ HF') as [F'' ->].
    apply head_of_suffix in E. cbv in E. intuition discriminate.
  - rewrite <- (app_assoc p1) in E. cbn [app] in E.
    apply backtick_split in E as [_ E]; [|reflexivity|assumption].
    destruct (first_backtick p2) as [Hp2|(p3 & p4 & -> & Hp3)].
    + rewrite (app_assoc p2 F') in E.
      apply backtick_split in E as [_ E];
        [|assumption|rewrite no_backtick_app, Hp2, BF'; reflexivity].
      now apply (HS' r').
    + rewrite <- (app_assoc p3) in E. cbn [app] in E.
      apply backtick_split in E as [_ ->]; [|assumption|assumption].
      rewrite (app_assoc p4 F') in HT. now rewrite no_backtick_mid in HT.
Qed.

Lemma rewrite_exception_fixpoint t :
  no_match_starts_in exception_code t [] = true -> rewrite_exception t = t.
Proof. intros H. apply scan_no_match; [reflexivity|exact H]. Qed.

(** A separator of white space other than one space does not give
    [, whereClause)]. *)
Lemma other_separator ws :
  forallb isspace ws = true -> ws <> py " " ->
  startswith ARGS (py "," ++ ws ++ py "whereClause)") = false.
Proof.
  intros Hw Hn.
  destruct (startswith ARGS (py "," ++ ws ++ py "whereClause)")) eqn:E;
    [exfalso|reflexivity].
  apply startswith_spec in E as [r E].
  destruct ws as [|c ws]; [discriminate E|].
  injection E as -> E. apply Hn.
  destruct ws as [|c ws]; [reflexivity|exfalso].
  injection E as -> _. discriminate Hw.
Qed.

(** ** Matches that start before a call do not depend on what follows it *)

Lemma no_match_starts_in_elim code : forall p s' suf,
    no_match_starts_in code (p ++ s') suf = true -> s' <> [] ->
    re.match_ code (s' ++ suf) = None.
Proof.
  induction p as [|c p IH]; intros s' suf H Hs'.
  - destruct s' as [|c s']; [contradiction|]. cbn [app no_match_starts_in] in H.
    cbn [app]. now destruct (re.match_ code (c :: s' ++ suf)).
  - cbn [app no_match_starts_in] in H.
    destruct (re.match_ code (c :: (p ++ s') ++ suf)); [discriminate|].
    now apply IH.
Qed.

Lemma call2_app L r : call2 L ++ r = OPEN ++ L ++ BACKTICK :: ARGS2 ++ r.
Proof. unfold call2. now rewrite <- !app_assoc. Qed.

Lemma patched_call2_app L r :
  patched_call2 L ++ r = OPEN ++ L ++ BACKTICK :: NEW_ARGS2 ++ r.
Proof. unfold patched_call2. now rewrite <- !app_assoc. Qed.

(** A match of the exception pattern that starts before [fmt.Sprintf(`]
    ends before it. *)
Lemma exception_match_is_local pre X Y :
  no_match_starts_in exception_code pre (OPEN ++ X) = true ->
  no_match_starts_in exception_code pre (OPEN ++ Y) = true.
Proof.
  intros H. apply no_match_starts_in_suffixes. intros p s' -> Hs'.
  pose proof (no_match_starts_in_elim _ _ _ _ H Hs') as HN.
  destruct (re.match_ exception_code (s' ++ OPEN ++ Y)) as [res|] eqn:M;
    [exfalso|reflexivity].
  apply match_exception_inv in M as (F' & r' & HF' & M).
  pose proof (fragment_no_backtick _ HF') as BF'.
  rewrite open_app in M, HN.
  destruct (first_backtick s') as [Hs|(s1 & s2 & -> & Hs1)].
  - rewrite app_assoc in M.
    apply backtick_split in M as [M _];
      [|rewrite no_backtick_app, Hs; reflexivity|assumption].
    symmetry in M. now apply (fragment_not_callee_end [] F' s').
  - rewrite <- (app_assoc s1) in M. cbn [app] in M.
    apply backtick_split in M as [-> M]; [|assumption|assumption].
    change CALLEE with ("f"%char :: py "mt.Sprintf(") in M. cbn [app] in M.
    symmetry in M. apply prefix_before in M as [s5 ->]; [|reflexivity].
    rewrite <- (app_assoc F') in HN. cbn [app] in HN.
    rewrite <- (app_assoc ARGS2) in HN.
    rewrite match_exception_fragment in HN by assumption. discriminate HN.
Qed.

(** A match of the general pattern that starts before a call and reaches
    into it does not reach its arguments. *)
Lemma general_match_is_local pre L T1 X T2 Y :
  no_backtick L = true ->
  no_match_starts_in general_code pre (OPEN ++ L ++ BACKTICK :: T1 ++ X) = true ->
  no_match_starts_in general_code pre (OPEN ++ L ++ BACKTICK :: T2 ++ Y) = true.
Proof.
  intros HL H. apply no_match_starts_in_suffixes. intros p s' -> Hs'.
  pose proof (no_match_starts_in_elim _ _ _ _ H Hs') as HN.
  destruct (re.match_ general_code (s' ++ OPEN ++ L ++ BACKTICK :: T2 ++ Y))
    as [res|] eqn:M; [exfalso|reflexivity].
  apply match_general_shape in M as (L' & r' & M & HL' & HG').
  rewrite open_app in M, HN.
  destruct (first_backtick s') as [Hs|(s1 & s2 & -> & Hs1)].
  - rewrite app_assoc in M.
    apply backtick_split in M as [M _];
      [|rewrite no_backtick_app, Hs; reflexivity|reflexivity].
    apply app_same_length_nil in M. contradiction.
  - rewrite <- (app_assoc s1) in M, HN. cbn [app] in M, HN.
    apply backtick_split in M as [-> M]; [|assumption|reflexivity].
    destruct (first_backtick s2) as [Hs2|(s3 & s4 & -> & Hs3)].
    + rewrite app_assoc in M.
      apply backtick_split in M as [<- M];
        [|rewrite no_backtick_app, Hs2; reflexivity|assumption].
      symmetry in M. apply prefix_before in M as [l ->]; [|reflexivity].
      rewrite (app_assoc s2 CALLEE) in HN. rewrite <- (app_assoc ARGS) in HN.
      rewrite match_general_call' in HN by assumption. discriminate HN.
    + rewrite <- (app_assoc s3) in M, HN. cbn [app] in M, HN.
      apply backtick_split in M as [<- M]; [|assumption|assumption].
      change CALLEE with ("f"%char :: py "mt.Sprintf(") in M. cbn [app] in M.
      symmetry in M. apply prefix_before in M as [s5 ->]; [|reflexivity].
      rewrite <- (app_assoc ARGS) in HN.
      rewrite match_general_call' in HN by assumption. discriminate HN.
Qed.

Lemma rewrite_exception_prefix pre suf :
  no_match_starts_in exception_code pre suf = true ->
  rewrite_exception (pre ++ suf) = pre ++ rewrite_exception suf.
Proof. apply scan_prefix. Qed.

Lemma exception_local_call2 pre L X Y :
  no_match_starts_in exception_code pre (call2 L ++ X) = true ->
  no_match_starts_in exception_code pre (call2 L ++ Y) = true.
Proof.
  rewrite !call2_app. apply exception_match_is_local.
Qed.

Lemma general_local_call2 pre A F X Y :
  no_backtick A = true -> Fragment F ->
  no_match_starts_in general_code pre (call2 (A ++ F) ++ X) = true ->
  no_match_starts_in general_code pre (patched_call2 (A ++ F) ++ Y) = true.
Proof.
  intros HA HF. rewrite call2_app, patched_call2_app.
  apply general_match_is_local.
  now rewrite no_backtick_app, HA, fragment_no_backtick.
Qed.

Lemma rewrite_exception_at pre A F r :
  no_match_starts_in exception_code pre (call2 (A ++ F) ++ r) = true ->
  no_backtick A = true -> Fragment F ->
  rewrite_exception (pre ++ call2 (A ++ F) ++ r)
  = pre ++ patched_call2 (A ++ F) ++ rewrite_exception r.
Proof.
  intros H HA HF. rewrite rewrite_exception_prefix by exact H.
  f_equal. now apply rewrite_exception_call2.
Qed.

Lemma rewrite_general_at_call2 pre A F r :
  no_match_starts_in general_code pre (call2 (A ++ F) ++ r) = true ->
  no_backtick A = true -> Fragment F ->
  rewrite_general (pre ++ call2 (A ++ F) ++ r)
  = pre ++ call2 (A ++ F) ++ rewrite_general r.
Proof.
  intros H HA HF. rewrite rewrite_general_prefix by exact H.
  f_equal. now apply rewrite_general_call2.
Qed.

Lemma rewrite_general_at_patched_call2 pre A F r :
  no_match_starts_in general_code pre (patched_call2 (A ++ F) ++ r) = true ->
  no_backtick A = true -> Fragment F ->
  rewrite_general (pre ++ patched_call2 (A ++ F) ++ r)
  = pre ++ patched_call2 (A ++ F) ++ rewrite_general r.
Proof.
  intros H HA HF. rewrite rewrite_general_prefix by exact H.
  f_equal. now apply rewrite_general_patched_call2.
Qed.

(** ** The Call-Site Rewriter: white space, the exception pattern, no-ops *)

(** C7 fails as stated: in each of these guarded calls the trailing
    argument is set off by white space other than one space after the
    comma, and none of them is matched: the text comes back unchanged. *)
Lemma other_whitespace_is_not_matched :
  fix_parquet_queries.new_content
    (py "fmt.Sprintf(`SELECT a FROM %s WHERE %s`,  whereClause)")
  = Some (py "fmt.Sprintf(`SELECT a FROM %s WHERE %s`,  whereClause)")
  /\ fix_parquet_queries.new_content
       (py "fmt.Sprintf(`SELECT a FROM %s WHERE %s`,whereClause)")
     = Some (py "fmt.Sprintf(`SELECT a FROM %s WHERE %s`,whereClause)")
  /\ fix_parquet_queries.new_content
       (py "fmt.Sprintf(`SELECT a FROM %s WHERE %s`, whereClause )")
     = Some (py "fmt.Sprintf(`SELECT a FROM %s WHERE %s`, whereClause )").
Proof. repeat split; vm_compute; reflexivity. Qed.

(** C7, amended.  The literal may contain newlines and is re-emitted as it
    is; at the argument boundary the match is exact: when the closing
    backtick is not followed by exactly [, whereClause)] (general pattern)
    or [, selectClause, whereClause)] (exception pattern), in particular
    when the white space after the comma is anything but one space, the
    call is not matched and the text comes back unchanged. *)
Theorem rewriter_is_exact_at_argument_boundaries :
  (forall L1 L2 rest,
      no_backtick L1 = true -> no_backtick L2 = true ->
      contains GUARD (L1 ++ NEWLINE :: L2) = true ->
      exists out,
        fix_parquet_queries.new_content rest = Some out /\
        fix_parquet_queries.new_content (call (L1 ++ NEWLINE :: L2) ++ rest)
        = Some (patched_call (L1 ++ NEWLINE :: L2) ++ out))
  /\ (forall L tail,
         no_backtick L = true -> no_backtick tail = true ->
         startswith ARGS tail = false ->
         fix_parquet_queries.new_content (OPEN ++ L ++ BACKTICK :: tail)
         = Some (OPEN ++ L ++ BACKTICK :: tail))
  /\ (forall L ws,
         no_backtick L = true -> forallb isspace ws = true ->
         ws <> py " " ->
         fix_parquet_queries.new_content
           (OPEN ++ L ++ BACKTICK :: py "," ++ ws ++ py "whereClause)")
         = Some (OPEN ++ L ++ BACKTICK :: py "," ++ ws ++ py "whereClause)"))
  /\ (forall A w1 w2 w3 w4 w5 w6 tail,
         no_backtick A = true ->
         blank w1 = true -> blank w2 = true -> blank w3 = true ->
         blank w4 = true -> blank w5 = true -> blank w6 = true ->
         no_backtick tail = true -> startswith ARGS2 tail = false ->
         fix_sprintf.new_content
           (OPEN ++ A ++ month_query w1 w2 w3 w4 w5 w6 ++ BACKTICK :: tail)
         = Some (OPEN ++ A ++ month_query w1 w2 w3 w4 w5 w6
                      ++ BACKTICK :: tail)).
Proof.
  split; [|split; [|split]].
  - intros L1 L2 rest H1 H2 HG. exists (rewrite_general rest).
    rewrite !new_content_general. split; [reflexivity|]. f_equal.
    apply rewrite_general_call; [|assumption].
    rewrite no_backtick_app, no_backtick_cons, H1, H2. reflexivity.
  - intros L tail HL HT HS. rewrite new_content_general. f_equal.
    apply rewrite_general_fixpoint. now apply general_exact_args.
  - intros L ws HL Hw Hn. rewrite new_content_general. f_equal.
    apply rewrite_general_fixpoint. apply general_exact_args.
    + assumption.
    + cbn [app py list_ascii_of_string]. rewrite no_backtick_cons.
      rewrite no_backtick_app.
      assert (no_backtick ws = true) as ->; [|reflexivity].
      unfold no_backtick. rewrite forallb_forall in *.
      intros c Hc. apply isspace_not_backtick. auto.
    + now apply other_separator.
  - intros A w1 w2 w3 w4 w5 w6 tail HA H1 H2 H3 H4 H5 H6 HT HS.
    rewrite new_content_exception. f_equal.
    apply rewrite_exception_fixpoint. apply exception_exact_args; try assumption.
    now constructor.
Qed.

Lemma rewriter_is_exact_at_argument_boundaries_witness :
  fix_parquet_queries.new_content
    (OPEN ++ py "SELECT a FROM %s WHERE %s"
          ++ BACKTICK :: py "," ++ [TAB; " "%char] ++ py "whereClause)")
  = Some (OPEN ++ py "SELECT a FROM %s WHERE %s"
               ++ BACKTICK :: py "," ++ [TAB; " "%char] ++ py "whereClause)").
Proof.
  apply (proj1 (proj2 (proj2 rewriter_is_exact_at_argument_boundaries))
               (py "SELECT a FROM %s WHERE %s") [TAB; " "%char]).
  - reflexivity.
  - reflexivity.
  - discriminate.
Defined.

(** C8.  The two-argument call whose literal ends with the month query,
    reached by the scans of both patterns (neither matches in the text
    [pre] before it), is rewritten by the exception pattern, with
    [parquetSource] put between [selectClause] and [whereClause]; the
    general pattern leaves that call as it is; so in either order of the
    two scripts the call gets [parquetSource] exactly once.  In each case
    the text after the call is rewritten on its own. *)
Theorem exception_pattern_rewrites_month_query :
  forall pre A w1 w2 w3 w4 w5 w6 rest,
    let L := A ++ month_query w1 w2 w3 w4 w5 w6 in
    no_match_starts_in exception_code pre (call2 L ++ rest) = true ->
    no_match_starts_in general_code pre (call2 L ++ rest) = true ->
    no_backtick A = true ->
    blank w1 = true -> blank w2 = true -> blank w3 = true ->
    blank w4 = true -> blank w5 = true -> blank w6 = true ->
    exists e g ge eg,
      fix_sprintf.new_content rest = Some e /\
      fix_sprintf.new_content (pre ++ call2 L ++ rest)
      = Some (pre ++ patched_call2 L ++ e)
      /\ fix_parquet_queries.new_content rest = Some g /\
      fix_parquet_queries.new_content (pre ++ call2 L ++ rest)
      = Some (pre ++ call2 L ++ g)
      /\ and_then fix_parquet_queries.new_content fix_sprintf.new_content rest
         = Some ge /\
      and_then fix_parquet_queries.new_content fix_sprintf.new_content
               (pre ++ call2 L ++ rest)
      = Some (pre ++ patched_call2 L ++ ge)
      /\ and_then fix_sprintf.new_content fix_parquet_queries.new_content rest
         = Some eg /\
      and_then fix_sprintf.new_content fix_parquet_queries.new_content
               (pre ++ call2 L ++ rest)
      = Some (pre ++ patched_call2 L ++ eg).
Proof.
  intros pre A w1 w2 w3 w4 w5 w6 rest L He Hg HA H1 H2 H3 H4 H5 H6.
  assert (Fragment (month_query w1 w2 w3 w4 w5 w6)) as HF by now constructor.
  pose proof (rewrite_exception_at pre A _ rest He HA HF) as Ee.
  pose proof (rewrite_general_at_call2 pre A _ rest Hg HA HF) as Eg.
  pose proof (rewrite_exception_at pre A _ (rewrite_general rest)
                (exception_local_call2 pre L rest _ He) HA HF) as Ege.
  pose proof (rewrite_general_at_patched_call2 pre A _ (rewrite_exception rest)
                (general_local_call2 pre A _ rest _ HA HF Hg) HA HF) as Eeg.
  fold L in Ee, Eg, Ege, Eeg.
  exists (rewrite_exception rest), (rewrite_general rest),
    (rewrite_exception (rewrite_general rest)),
    (rewrite_general (rewrite_exception rest)).
  unfold and_then.
  rewrite (new_content_exception rest), (new_content_general rest).
  rewrite (new_content_exception (pre ++ call2 L ++ rest)).
  rewrite (new_content_general (pre ++ call2 L ++ rest)).
  rewrite (new_content_exception (rewrite_general rest)).
  rewrite (new_content_general (rewrite_exception rest)).
  rewrite Ee, Eg.
  rewrite (new_content_exception (pre ++ call2 L ++ rewrite_general rest)).
  rewrite (new_content_general
             (pre ++ patched_call2 L ++ rewrite_exception rest)).
  rewrite Ege, Eeg.
  repeat split; reflexivity.
Qed.

Lemma exception_pattern_rewrites_month_query_witness :
  exists e g ge eg,
    fix_sprintf.new_content (py "; next") = Some e /\
    fix_sprintf.new_content (py "q := " ++ call2 month_literal ++ py "; next")
    = Some (py "q := " ++ patched_call2 month_literal ++ e)
    /\ fix_parquet_queries.new_content (py "; next") = Some g /\
    fix_parquet_queries.new_content
      (py "q := " ++ call2 month_literal ++ py "; next")
    = Some (py "q := " ++ call2 month_literal ++ g)
    /\ and_then fix_parquet_queries.new_content fix_sprintf.new_content
                (py "; next") = Some ge /\
    and_then fix_parquet_queries.new_content fix_sprintf.new_content
             (py "q := " ++ call2 month_literal ++ py "; next")
    = Some (py "q := " ++ patched_call2 month_literal ++ ge)
    /\ and_then fix_sprintf.new_content fix_parquet_queries.new_content
                (py "; next") = Some eg /\
    and_then fix_sprintf.new_content fix_parquet_queries.new_content
             (py "q := " ++ call2 month_literal ++ py "; next")
    = Some (py "q := " ++ patched_call2 month_literal ++ eg).
Proof.
  apply (exception_pattern_rewrites_month_query
           (py "q := ") (py "SELECT ")
           [TAB] [TAB] [TAB; TAB] [TAB] [TAB] [NEWLINE; TAB] (py "; next"));
    reflexivity.
Defined.

(** C9.  Nothing fails on an input without a match.  The inserter always
    ends with a result; at a target line that no line with a brace follows,
    the iteration inserts nothing and prints nothing.  A text in which a
    pattern of the rewriter matches nowhere is returned as it is. *)
Theorem no_match_is_a_no_op :
  (forall lines, exists out printed, run lines = Some (out, printed))
  /\ (forall lines i,
         target_at i lines = true ->
         (forall j l, i < j -> nth_error lines j = Some l ->
                      has_brace l = false) ->
         body i lines = (lines, []))
  /\ (forall content,
         no_match_starts_in general_code content [] = true ->
         fix_parquet_queries.new_content content = Some content)
  /\ (forall content,
         no_match_starts_in exception_code content [] = true ->
         fix_sprintf.new_content content = Some content).
Proof.
  split; [|split; [|split]].
  - apply run_total.
  - intros lines i T H. apply body_unchanged. unfold step.
    assert (needs_binding (insertion_point i lines) lines = false) as ->;
      [|now rewrite andb_false_r].
    unfold needs_binding, insertion_point.
    rewrite first_brace_absent.
    + assert (nth_error lines (i + 1 + length (skipn (i + 1) lines) + 1) = None)
        as ->; [|reflexivity].
      apply nth_error_None. rewrite length_skipn. lia.
    + intros n l E. rewrite nth_error_skipn in E. apply (H (i + 1 + n)); [lia|].
      exact E.
  - intros content H. rewrite new_content_general. f_equal.
    now apply rewrite_general_fixpoint.
  - intros content H. rewrite new_content_exception. f_equal.
    now apply rewrite_exception_fixpoint.
Qed.

Lemma no_match_is_a_no_op_witness :
  body 1 unfinished_signature = (unfinished_signature, [])
  /\ fix_parquet_queries.new_content (py "x := fmt.Sprintf(`SELECT 1`)")
     = Some (py "x := fmt.Sprintf(`SELECT 1`)")
  /\ fix_sprintf.new_content (py "x := fmt.Sprintf(`SELECT 1`)")
     = Some (py "x := fmt.Sprintf(`SELECT 1`)").
Proof.
  split; [|split].
  - apply (proj1 (proj2 no_match_is_a_no_op) unfinished_signature 1).
    + reflexivity.
    + intros j l Hj E. destruct j as [|[|[|j]]]; try lia; simpl in E.
      * injection E as <-. reflexivity.
      * destruct j; discriminate E.
  - apply (proj1 (proj2 (proj2 no_match_is_a_no_op))). reflexivity.
  - apply (proj2 (proj2 (proj2 no_match_is_a_no_op))). reflexivity.
Defined.

(** * Further properties *)

(** ** The inserter: what an iteration does, and what it prints *)

Lemma first_target_in line name :
  first_target line = Some name ->
  In name functions_needing_fix /\ is_target line = true.
Proof.
  intros H. unfold first_target in H. pose proof (find_some _ _ H) as [Hin C].
  split; [assumption|]. unfold is_target. apply existsb_exists. now exists name.
Qed.

Lemma body_cases i lines :
  body i lines = (lines, []) \/
  exists line name,
    nth_error lines i = Some line /\ first_target line = Some name /\
    needs_binding (insertion_point i lines) lines = true /\
    body i lines = (list_insert (insertion_point i lines) binding_line lines,
                    [added_message name]).
Proof.
  unfold body, needs_binding, insertion_point.
  rewrite skip_to_brace_first.
  destruct (nth_error lines i) as [line|] eqn:El; [|now left].
  destruct (find _ functions_needing_fix) as [name|] eqn:F; [|now left].
  destruct (nth_error lines (i + 1 + first_brace (skipn (i + 1) lines) + 1))
    as [lj|] eqn:Ej; [|now left].
  destruct (negb (has_binding lj)) eqn:B; [right|now left].
  exists line, name. repeat split; assumption.
Qed.

Lemma while_loop_log : forall fuel i lines printed out printed',
    while_loop fuel i lines printed = Some (out, printed') ->
    exists added,
      printed' = printed ++ map added_message added /\
      length out = length lines + length added /\
      Forall (fun name => In name functions_needing_fix) added.
Proof.
  induction fuel as [|fuel IH]; intros i lines pr out pr' H;
    rewrite while_loop_eq in H;
    destruct (Nat.ltb_spec i (length lines)) as [Hi|Hi]; try discriminate H.
  - injection H as <- <-. exists []. simpl. rewrite app_nil_r. auto.
  - destruct (body_cases i lines) as [E|(line & name & _ & F & _ & E)];
      rewrite E in H; apply IH in H as (added & -> & Hl & Hf).
    + exists added. rewrite app_nil_r. auto.
    + exists (name :: added). rewrite length_list_insert in Hl.
      rewrite <- app_assoc. simpl. repeat split; [lia|].
      constructor; [|assumption]. now apply first_target_in in F.
  - injection H as <- <-. exists []. simpl. rewrite app_nil_r. auto.
Qed.

(** X1.  A run prints one [Added parquetSource to <name>] line for every
    line it inserts, each naming one of the target functions, and then the
    closing message. *)
Theorem one_message_per_insertion :
  forall lines,
    exists out added,
      run lines = Some (out, map added_message added ++ [final_message]) /\
      length out = length lines + length added /\
      Forall (fun name => In name functions_needing_fix) added.
Proof.
  intros lines. unfold run.
  destruct (while_loop_total (2 * length lines) 0 lines [] (measure_start lines))
    as (out & pr & E).
  rewrite E. apply while_loop_log in E as (added & -> & Hl & Hf).
  exists out, added. auto.
Qed.

(** X2.  An iteration at a target line whose first later line with a brace
    is line [b] inserts the binding right after line [b], when there is a
    line after [b] and it lacks the binding, and reports the first target
    name found in the line; and an iteration changes the buffer in no other
    situation. *)
Theorem iteration_inserts_after_first_later_brace :
  (forall i lines line name b lb lj,
      nth_error lines i = Some line -> first_target line = Some name ->
      i < b -> nth_error lines b = Some lb -> has_brace lb = true ->
      (forall k l, i < k < b -> nth_error lines k = Some l ->
                   has_brace l = false) ->
      nth_error lines (b + 1) = Some lj -> has_binding lj = false ->
      body i lines
      = (list_insert (b + 1) binding_line lines, [added_message name]))
  /\ (forall i lines,
         body i lines <> (lines, []) ->
         exists line name b lb lj,
           nth_error lines i = Some line /\ first_target line = Some name /\
           i < b /\ nth_error lines b = Some lb /\ has_brace lb = true /\
           (forall k l, i < k < b -> nth_error lines k = Some l ->
                        has_brace l = false) /\
           nth_error lines (b + 1) = Some lj /\ has_binding lj = false).
Proof.
  split.
  - intros i lines line name b lb lj El F Hb Eb B Hnone Ej Bj.
    assert (target_at i lines = true) as T.
    { unfold target_at. rewrite El. now apply first_target_in in F. }
    pose proof (step_inserts_after_brace i lines b lb lj T Hb Eb B Hnone Ej Bj)
      as S.
    destruct (body_cases i lines) as [E|(line' & name' & El' & F' & N & E)].
    + rewrite <- body_step, E in S. simpl in S.
      symmetry in S. now apply list_insert_neq in S.
    + rewrite <- body_step, E in S. simpl in S. rewrite E, S.
      rewrite El in El'. injection El' as <-. rewrite F in F'.
      now injection F' as <-.
  - intros i lines H.
    destruct (body_cases i lines) as [E|(line & name & El & F & N & E)];
      [contradiction|].
    pose proof N as N'. apply needs_binding_lt in N'.
    destruct (insertion_after_brace i lines N') as (lb & Eb & B).
    unfold needs_binding in N.
    destruct (nth_error lines (insertion_point i lines)) as [lj|] eqn:Ej;
      [|discriminate N].
    exists line, name, (insertion_point i lines - 1), lb, lj.
    pose proof (insertion_point_lower i lines) as Hlow.
    replace (insertion_point i lines - 1 + 1) with (insertion_point i lines)
      by lia.
    repeat split; try assumption; try lia.
    + intros k l Hk Ek.
      apply (first_brace_none (skipn (i + 1) lines) (k - (i + 1)) l).
      * unfold insertion_point in Hk. lia.
      * rewrite nth_error_skipn, <- Ek. f_equal. lia.
    + now destruct (has_binding lj).
Qed.

Lemma iteration_inserts_after_first_later_brace_witness :
  body 0 longer_name_buffer
  = (list_insert (1 + 1) binding_line longer_name_buffer,
     [added_message (py "GetProjects")]).
Proof.
  apply (proj1 iteration_inserts_after_first_later_brace
               0 longer_name_buffer
               (py "func (r *eventRepository) GetProjectsByID(" ++ [NEWLINE])
               (py "GetProjects") 1
               (py ") {" ++ [NEWLINE]) ([TAB] ++ py "x()" ++ [NEWLINE]));
    try reflexivity; try lia.
Defined.

(** ** The inserter: what a run keeps *)

Lemma firstn_insert (A : Type) (x : A) : forall n j l,
    n <= j -> j <= length l -> firstn n (list_insert j x l) = firstn n l.
Proof.
  induction n as [|n IH]; intros j l Hn Hj; [reflexivity|].
  destruct j as [|j]; [lia|].
  destruct l as [|a l]; [simpl in Hj; lia|]. rewrite list_insert_cons.
  simpl in *. f_equal. apply IH; lia.
Qed.

Lemma last_insert (A : Type) (x d : A) : forall j l,
    j < length l -> last (list_insert j x l) d = last l d.
Proof.
  induction j as [|j IH]; intros l Hj.
  - destruct l as [|a l]; [simpl in Hj; lia|]. reflexivity.
  - destruct l as [|a l]; [simpl in Hj; lia|]. rewrite list_insert_cons.
    simpl in Hj. assert (j < length l) as Hj' by lia.
    specialize (IH l Hj').
    destruct l as [|b l]; [simpl in Hj'; lia|].
    change (last (a :: b :: l) d) with (last (b :: l) d). rewrite <- IH.
    destruct (list_insert j x (b :: l)) as [|c m] eqn:E;
      [|reflexivity].
    apply (f_equal (@length A)) in E. rewrite length_list_insert in E.
    discriminate E.
Qed.

Lemma in_list_insert (A : Type) (x y : A) j l :
  In y (list_insert j x l) -> y = x \/ In y l.
Proof.
  unfold list_insert. intros H. apply in_app_or in H as [H|[H|H]].
  - right. rewrite <- (firstn_skipn j l). apply in_or_app. now left.
  - now left.
  - right. rewrite <- (firstn_skipn j l). apply in_or_app. now right.
Qed.

(** X3.  A run never inserts before the third line nor after the last
    one: the first two lines and the last line of the buffer stay where
    they are. *)
Theorem inserter_keeps_both_ends :
  forall lines,
    exists out,
      written lines = Some out /\
      firstn 2 out = firstn 2 lines /\
      last out [] = last lines [].
Proof.
  intros lines. destruct (written_total lines) as [out W]. exists out.
  split; [assumption|].
  destruct (written_invariant
              (fun _ l => firstn 2 l = firstn 2 lines
                          /\ last l [] = last lines []) lines out)
    as (n & _ & H); try assumption; [|now split].
  intros i l Hi [H1 H2].
  destruct (step_cases i l) as [->|(_ & N & ->)]; [now split|].
  apply needs_binding_lt in N. pose proof (insertion_point_lower i l).
  split.
  - rewrite firstn_insert by lia. assumption.
  - rewrite last_insert by lia. assumption.
Qed.

(** X4.  A buffer of at most two lines is written back unchanged, whatever
    its lines contain. *)
Theorem inserter_leaves_short_buffers :
  forall lines, length lines <= 2 -> written lines = Some lines.
Proof.
  intros lines Hl. apply written_fixed. intros k _.
  destruct (step_cases k lines) as [E|(_ & N & _)]; [assumption|].
  apply needs_binding_lt in N. pose proof (insertion_point_lower k lines). lia.
Qed.

Lemma inserter_leaves_short_buffers_witness :
  written [ py "func (r *eventRepository) GetChannels() {" ++ [NEWLINE];
            py "}" ++ [NEWLINE] ]
  = Some [ py "func (r *eventRepository) GetChannels() {" ++ [NEWLINE];
           py "}" ++ [NEWLINE] ].
Proof.
  apply (inserter_leaves_short_buffers
           [ py "func (r *eventRepository) GetChannels() {" ++ [NEWLINE];
             py "}" ++ [NEWLINE] ]).
  simpl. lia.
Defined.

(** X5.  Every line that a run writes back is a line that it read or the
    binding line: no other text is ever produced. *)
Theorem inserter_writes_only_known_lines :
  forall lines,
    exists out,
      written lines = Some out /\
      Forall (fun l => l = binding_line \/ In l lines) out.
Proof.
  intros lines. destruct (written_total lines) as [out W]. exists out.
  split; [assumption|].
  destruct (written_invariant
              (fun _ l => Forall (fun x => x = binding_line \/ In x lines) l)
              lines out) as (n & _ & H); try assumption.
  - intros i l Hi H. destruct (step_cases i l) as [->|(_ & _ & ->)];
      [assumption|].
    rewrite Forall_forall in *. intros x Hx.
    apply in_list_insert in Hx as [->|Hx]; [now left|]. now apply H.
  - apply Forall_forall. intros x Hx. now right.
Qed.

(** X6.  After a run, wherever a line contains the marker of a target and
    a line exists at its insertion point (right after the first later line
    with a brace), that line contains the binding. *)
Theorem inserter_leaves_no_target_without_binding :
  forall lines,
    exists out,
      written lines = Some out /\
      forall i line lj,
        nth_error out i = Some line -> is_target line = true ->
        nth_error out (insertion_point i out) = Some lj ->
        has_binding lj = true.
Proof.
  intros lines. destruct (written_total lines) as [out W]. exists out.
  split; [assumption|]. intros i line lj Ei T Ej.
  pose proof (written_stable lines out W) as S.
  assert (i < length out) as Hi by (apply nth_error_Some; congruence).
  specialize (S i Hi). unfold step, target_at, needs_binding in S.
  rewrite Ei, T, Ej in S. cbn [andb] in S.
  destruct (has_binding lj); [reflexivity|].
  simpl in S. now apply list_insert_neq in S.
Qed.

Lemma inserter_leaves_no_target_without_binding_witness :
  exists out lj,
    written [ py "func (r *eventRepository) GetTopEvents(" ++ [NEWLINE];
              py ") {" ++ [NEWLINE];
              [TAB] ++ py "x()" ++ [NEWLINE];
              py "}" ++ [NEWLINE] ] = Some out
    /\ nth_error out (insertion_point 0 out) = Some lj
    /\ has_binding lj = true.
Proof.
  destruct (inserter_leaves_no_target_without_binding
              [ py "func (r *eventRepository) GetTopEvents(" ++ [NEWLINE];
                py ") {" ++ [NEWLINE];
                [TAB] ++ py "x()" ++ [NEWLINE];
                py "}" ++ [NEWLINE] ]) as (out & W & H).
  exists out, binding_line. split; [exact W|].
  vm_compute in W. injection W as <-.
  split; [reflexivity|].
  apply (H 0 (py "func (r *eventRepository) GetTopEvents(" ++ [NEWLINE])
           binding_line); reflexivity.
Defined.

(** ** The rewriters: texts that they leave alone *)

Lemma fragment_starts_with_month F : Fragment F -> exists F', F = MONTH ++ F'.
Proof. intros [w1 w2 w3 w4 w5 w6 _ _ _ _ _ _]. eexists. reflexivity. Qed.

Lemma contains_suffix w p s :
  contains w (p ++ s) = false -> contains w s = false.
Proof.
  intros H. destruct (contains w s) eqn:E; [|reflexivity].
  now rewrite (contains_app_r _ _ _ E) in H.
Qed.

Lemma no_general_match_without_guard s :
  contains GUARD s = false -> re.match_ general_code s = None.
Proof.
  intros H. destruct (re.match_ general_code s) as [res|] eqn:M;
    [exfalso|reflexivity].
  apply match_general_inv in M as (L & r & -> & _ & HG & _).
  rewrite call_app in H. apply contains_suffix in H.
  now rewrite (contains_app_l _ _ _ HG) in H.
Qed.

Lemma no_exception_match_without_month s :
  contains MONTH s = false -> re.match_ exception_code s = None.
Proof.
  intros H. destruct (re.match_ exception_code s) as [res|] eqn:M;
    [exfalso|reflexivity].
  apply match_exception_inv in M as (F & r & HF & ->).
  destruct (fragment_starts_with_month _ HF) as [F' ->].
  assert (contains MONTH ((MONTH ++ F') ++ BACKTICK :: ARGS2 ++ r) = true)
    as C; [|now rewrite C in H].
  apply contains_spec. exists [], (F' ++ BACKTICK :: ARGS2 ++ r).
  now rewrite <- app_assoc.
Qed.

Lemma contains_backtick s :
  no_backtick s = true -> contains [BACKTICK] s = false.
Proof.
  intros H. destruct (contains [BACKTICK] s) eqn:C; [|reflexivity].
  apply contains_spec in C as (a & b & ->). cbn [app] in H.
  now rewrite no_backtick_mid in H.
Qed.

Lemma no_general_match_without_backtick s :
  contains [BACKTICK] s = false -> re.match_ general_code s = None.
Proof.
  intros H. destruct (re.match_ general_code s) as [res|] eqn:M;
    [exfalso|reflexivity].
  apply match_general_shape in M as (L & r & -> & _).
  assert (contains [BACKTICK]
            (CALLEE ++ BACKTICK :: L ++ BACKTICK :: ARGS ++ r) = true)
    as C; [|now rewrite C in H].
  apply contains_spec. now exists CALLEE, (L ++ BACKTICK :: ARGS ++ r).
Qed.

Lemma no_exception_match_without_backtick s :
  contains [BACKTICK] s = false -> re.match_ exception_code s = None.
Proof.
  intros H. destruct (re.match_ exception_code s) as [res|] eqn:M;
    [exfalso|reflexivity].
  apply match_exception_inv in M as (F & r & _ & ->).
  assert (contains [BACKTICK] (F ++ BACKTICK :: ARGS2 ++ r) = true)
    as C; [|now rewrite C in H].
  apply contains_spec. now exists F, (ARGS2 ++ r).
Qed.

(** A pattern that cannot match a text without the word [w] matches
    nowhere in such a text. *)
Lemma no_match_without code w :
  (forall s, contains w s = false -> re.match_ code s = None) ->
  forall t, contains w t = false -> no_match_starts_in code t [] = true.
Proof.
  intros H t Ht. apply no_match_starts_in_suffixes. intros p s' -> _.
  rewrite app_nil_r. apply H. now apply (contains_suffix w p).
Qed.

(** X7.  A text without [FROM %s] comes back unchanged from the general
    pattern, a text without the first words of the month query comes back
    unchanged from the exception pattern, and a text without any backtick
    comes back unchanged from both. *)
Theorem text_without_anchor_is_unchanged :
  (forall content,
      contains GUARD content = false ->
      fix_parquet_queries.new_content content = Some content)
  /\ (forall content,
         contains MONTH content = false ->
         fix_sprintf.new_content content = Some content)
  /\ (forall content,
         contains [BACKTICK] content = false ->
         fix_parquet_queries.new_content content = Some content
         /\ fix_sprintf.new_content content = Some content).
Proof.
  split; [|split].
  - intros content H. rewrite new_content_general. f_equal.
    apply rewrite_general_fixpoint.
    exact (no_match_without _ _ no_general_match_without_guard content H).
  - intros content H. rewrite new_content_exception. f_equal.
    apply rewrite_exception_fixpoint.
    exact (no_match_without _ _ no_exception_match_without_month content H).
  - intros content H. split.
    + rewrite new_content_general. f_equal. apply rewrite_general_fixpoint.
      exact (no_match_without _ _ no_general_match_without_backtick content H).
    + rewrite new_content_exception. f_equal. apply rewrite_exception_fixpoint.
      exact (no_match_without _ _ no_exception_match_without_backtick content H).
Qed.

Lemma text_without_anchor_is_unchanged_witness :
  fix_parquet_queries.new_content
    (py "n := fmt.Sprintf(`SELECT 1 WHERE %s`, whereClause)")
  = Some (py "n := fmt.Sprintf(`SELECT 1 WHERE %s`, whereClause)")
  /\ fix_sprintf.new_content
       (py "q := fmt.Sprintf(`SELECT a FROM %s`, selectClause, whereClause)")
     = Some (py "q := fmt.Sprintf(`SELECT a FROM %s`, selectClause, whereClause)")
  /\ fix_parquet_queries.new_content (py "FROM %s, whereClause)")
     = Some (py "FROM %s, whereClause)").
Proof.
  split; [|split].
  - apply (proj1 text_without_anchor_is_unchanged). reflexivity.
  - apply (proj1 (proj2 text_without_anchor_is_unchanged)). reflexivity.
  - exact (proj1 (proj2 (proj2 text_without_anchor_is_unchanged)
                        (py "FROM %s, whereClause)") eq_refl)).
Defined.

(** ** The rewriters: the only change is the new argument *)

Lemma rewrite_exception_copy c s :
  re.match_ exception_code (c :: s) = None ->
  rewrite_exception (c :: s) = c :: rewrite_exception s.
Proof. intros H. unfold rewrite_exception. now apply scan_copy. Qed.

(** The three situations of the scan of the exception pattern. *)
Lemma rewrite_exception_cases t :
  t = [] \/
  (exists c t', t = c :: t' /\ re.match_ exception_code t = None /\
                rewrite_exception t = c :: rewrite_exception t') \/
  (exists F r, t = F ++ BACKTICK :: ARGS2 ++ r /\ Fragment F /\
               rewrite_exception t
               = F ++ BACKTICK :: NEW_ARGS2 ++ rewrite_exception r).
Proof.
  destruct t as [|c t']; [now left|right].
  destruct (re.match_ exception_code (c :: t')) as [res|] eqn:E.
  - right. apply match_exception_inv in E as (F & r & HF & E).
    exists F, r. rewrite E. auto using rewrite_exception_fragment.
  - left. exists c, t'. auto using rewrite_exception_copy.
Qed.

Lemma length_fragment_app (F : text) r :
  length r < length (F ++ BACKTICK :: ARGS2 ++ r).
Proof. lengths. Qed.

Lemma joined_cons c args args' pieces rest :
  exists pieces' rest',
    c :: joined args pieces rest = joined args pieces' rest'
    /\ c :: joined args' pieces rest = joined args' pieces' rest'.
Proof.
  destruct pieces as [|p pieces].
  - now exists [], (c :: rest).
  - now exists ((c :: p) :: pieces), rest.
Qed.

Lemma joined_piece args p pieces rest :
  (p ++ args) ++ joined args pieces rest = joined args (p :: pieces) rest.
Proof. unfold joined. cbn [flat_map]. now rewrite <- !app_assoc. Qed.

Lemma rewrite_general_joined : forall t,
    exists pieces rest,
      t = joined ARGS pieces rest
      /\ rewrite_general t = joined NEW_ARGS pieces rest.
Proof.
  induction t as [t IH] using text_length_ind.
  destruct (rewrite_general_cases t)
    as [->|[(c & t' & -> & _ & ->)|(L & r & -> & _ & _ & ->)]].
  - now exists [], [].
  - destruct (IH t') as (ps & rest & E & ->); [simpl; lia|].
    destruct (joined_cons c ARGS NEW_ARGS ps rest) as (ps' & rest' & E1 & E2).
    exists ps', rest'. rewrite <- E1, <- E2. now rewrite <- E.
  - destruct (IH r) as (ps & rest & E & ->); [apply length_call_app|].
    exists ((OPEN ++ L ++ [BACKTICK]) :: ps), rest.
    rewrite <- !joined_piece, <- E. unfold call, patched_call.
    split; now norm.
Qed.

Lemma rewrite_exception_joined : forall t,
    exists pieces rest,
      t = joined ARGS pieces rest
      /\ rewrite_exception t = joined NEW_ARGS pieces rest.
Proof.
  induction t as [t IH] using text_length_ind.
  destruct (rewrite_exception_cases t)
    as [->|[(c & t' & -> & _ & ->)|(F & r & -> & _ & ->)]].
  - now exists [], [].
  - destruct (IH t') as (ps & rest & E & ->); [simpl; lia|].
    destruct (joined_cons c ARGS NEW_ARGS ps rest) as (ps' & rest' & E1 & E2).
    exists ps', rest'. rewrite <- E1, <- E2. now rewrite <- E.
  - destruct (IH r) as (ps & rest & E & ->); [apply length_fragment_app|].
    exists ((F ++ BACKTICK :: py ", selectClause") :: ps), rest.
    rewrite <- !joined_piece, <- E. split; now norm.
Qed.

(** X8.  All that either rewriter does to a text is to put
    [, parquetSource] right before some of its occurrences of
    [, whereClause)]: the text is a sequence of pieces that end with
    [, whereClause)] and a rest, and the result is the same pieces with
    [, parquetSource, whereClause)] for an end, and the same rest. *)
Theorem rewriters_only_insert_the_argument :
  forall content,
    (exists pieces rest,
        content = joined ARGS pieces rest
        /\ fix_parquet_queries.new_content content
           = Some (joined NEW_ARGS pieces rest))
    /\ (exists pieces rest,
           content = joined ARGS pieces rest
           /\ fix_sprintf.new_content content
              = Some (joined NEW_ARGS pieces rest)).
Proof.
  intros content. split.
  - destruct (rewrite_general_joined content) as (ps & rest & E & R).
    exists ps, rest. split; [assumption|].
    now rewrite new_content_general, R.
  - destruct (rewrite_exception_joined content) as (ps & rest & E & R).
    exists ps, rest. split; [assumption|].
    now rewrite new_content_exception, R.
Qed.

(** ** The exception pattern: a second pass finds nothing *)

Lemma no_st_suffix : forall p s', no_st (p ++ s') = true -> no_st s' = true.
Proof.
  induction p as [|c p IH]; intros s' H; [assumption|].
  cbn [app no_st] in H. apply andb_true_iff in H as [_ H]. now apply IH.
Qed.

Lemma no_st_start T p s' x :
  no_st T = true -> T = p ++ s' -> s' <> [] ->
  startswith (py "st") (s' ++ x) = false.
Proof.
  intros H -> Hs'. apply no_st_suffix in H.
  change (py "st") with ["s"%char; "t"%char].
  destruct s' as [|c [|d s']]; [contradiction| |];
    cbn [no_st] in H; apply andb_true_iff in H as [H _];
    cbn [app startswith].
  - rewrite Ascii.eqb_sym. destruct (Ascii.eqb c "s"); [discriminate H|].
    reflexivity.
  - rewrite (Ascii.eqb_sym "s" c), (Ascii.eqb_sym "t" d).
    destruct (Ascii.eqb c "s"); [|reflexivity].
    destruct (Ascii.eqb d "t"); [discriminate H|reflexivity].
Qed.

Lemma exception_match_starts_st s res :
  re.match_ exception_code s = Some res -> startswith (py "st") s = true.
Proof.
  intros M. apply match_exception_inv in M as (F & r & HF & ->).
  destruct (fragment_starts_with_month _ HF) as [F' ->]. reflexivity.
Qed.

(** Where no word can start with [st], the exception pattern does not
    match. *)
Lemma no_exception_match_in T x p s' :
  no_st T = true -> T = p ++ s' -> s' <> [] ->
  re.match_ exception_code (s' ++ x) = None.
Proof.
  intros HT E Hs'.
  destruct (re.match_ exception_code (s' ++ x)) as [res|] eqn:M;
    [exfalso|reflexivity].
  apply exception_match_starts_st in M.
  now rewrite (no_st_start T p s' x HT E Hs') in M.
Qed.

(** Adding the new argument to a month query creates no match that starts
    before that query. *)
Lemma exception_match_after_insert s F r :
  Fragment F ->
  re.match_ exception_code (s ++ F ++ BACKTICK :: ARGS2 ++ r) = None ->
  re.match_ exception_code (s ++ F ++ BACKTICK :: NEW_ARGS2 ++ r) = None.
Proof.
  intros HF HN.
  destruct (re.match_ exception_code (s ++ F ++ BACKTICK :: NEW_ARGS2 ++ r))
    as [res|] eqn:E; [exfalso|reflexivity].
  apply match_exception_inv in E as (F' & r' & HF' & E).
  pose proof (fragment_no_backtick _ HF) as BF.
  pose proof (fragment_no_backtick _ HF') as BF'.
  destruct (first_backtick s) as [Hs|(s1 & s2 & -> & Hs1)].
  - rewrite app_assoc in E.
    apply backtick_split in E as [_ E];
      [|rewrite no_backtick_app, Hs, BF; reflexivity|assumption].
    discriminate E.
  - norm. apply backtick_split in E as [<- E]; [|assumption|assumption].
    symmetry in E. rewrite (app_assoc s2 F) in E.
    apply prefix_before in E as [z E]; [|reflexivity].
    rewrite (app_assoc s2 F), E in HN. norm.
    rewrite match_exception_fragment in HN by assumption. discriminate HN.
Qed.

(** Rewriting the rest of the text creates no match that starts before
    it. *)
Lemma exception_match_stable : forall t s,
    re.match_ exception_code (s ++ t) = None ->
    re.match_ exception_code (s ++ rewrite_exception t) = None.
Proof.
  induction t as [t IH] using text_length_ind. intros s HN.
  destruct (rewrite_exception_cases t)
    as [->|[(c & t' & -> & _ & ->)|(F & r & -> & HF & ->)]].
  - exact HN.
  - change (s ++ c :: rewrite_exception t')
      with (s ++ [c] ++ rewrite_exception t').
    rewrite app_assoc. apply IH; [simpl; lia|].
    now rewrite <- app_assoc.
  - replace (s ++ F ++ BACKTICK :: NEW_ARGS2 ++ rewrite_exception r)
      with ((s ++ F ++ BACKTICK :: NEW_ARGS2) ++ rewrite_exception r)
      by now norm.
    apply IH; [apply length_fragment_app|]. norm.
    now apply exception_match_after_insert.
Qed.

(** No match starts inside a rewritten month query. *)
Lemma no_exception_match_inside_patched F x p s' :
  Fragment F ->
  F ++ BACKTICK :: NEW_ARGS2 = p ++ s' -> s' <> [] ->
  re.match_ exception_code (s' ++ x) = None.
Proof.
  intros HF E Hs'.
  apply suffix_app in E as [(a2 & E1 & Ha2 & ->)|[b1 [-> E]]]; [| |assumption].
  - destruct (re.match_ exception_code ((a2 ++ BACKTICK :: NEW_ARGS2) ++ x))
      as [res|] eqn:M; [exfalso|reflexivity].
    apply match_exception_inv in M as (F' & r' & HF' & M). norm.
    apply backtick_split in M as [_ M];
      [| apply (no_backtick_suffix p); rewrite <- E1;
         now apply fragment_no_backtick
       | now apply fragment_no_backtick ].
    discriminate M.
  - now apply (no_exception_match_in (BACKTICK :: NEW_ARGS2) x b1 s').
Qed.

(** After one pass the exception pattern matches nowhere. *)
Lemma rewrite_exception_normal : forall t,
    no_match_starts_in exception_code (rewrite_exception t) [] = true.
Proof.
  induction t as [t IH] using text_length_ind.
  destruct (rewrite_exception_cases t)
    as [->|[(c & t' & -> & HN & ->)|(F & r & -> & HF & ->)]].
  - reflexivity.
  - cbn [no_match_starts_in]. rewrite app_nil_r.
    pose proof (exception_match_stable t' [c] HN) as HN'. cbn [app] in HN'.
    rewrite HN'. apply IH. simpl; lia.
  - replace (F ++ BACKTICK :: NEW_ARGS2 ++ rewrite_exception r)
      with ((F ++ BACKTICK :: NEW_ARGS2) ++ rewrite_exception r) by now norm.
    rewrite no_match_starts_in_app. apply andb_true_iff. split.
    + apply no_match_starts_in_suffixes. intros p s' E Hs'.
      rewrite app_nil_r.
      now apply (no_exception_match_inside_patched F _ p s').
    + apply IH. apply length_fragment_app.
Qed.

(** X9.  The exception pattern is idempotent on every text: after one
    application it matches nowhere, so a second application changes
    nothing. *)
Theorem exception_pattern_idempotent :
  forall content,
    exists once,
      fix_sprintf.new_content content = Some once /\
      fix_sprintf.new_content once = Some once.
Proof.
  intros content. exists (rewrite_exception content).
  split; [apply new_content_exception|].
  rewrite (new_content_exception (rewrite_exception content)). f_equal.
  apply rewrite_exception_fixpoint, rewrite_exception_normal.
Qed.

(** ** The two rewriters do not disturb each other *)

(** The exception pattern matches nowhere inside a call
    [fmt.Sprintf(`L`T] whose arguments [T] are not those of the month
    query. *)
Lemma no_exception_match_inside_call L T x p s' :
  no_backtick L = true -> no_st (BACKTICK :: T) = true ->
  startswith ARGS2 (T ++ x) = false ->
  OPEN ++ L ++ BACKTICK :: T = p ++ s' -> s' <> [] ->
  re.match_ exception_code (s' ++ x) = None.
Proof.
  intros HL HT HS E Hs'.
  destruct (re.match_ exception_code (s' ++ x)) as [res|] eqn:M;
    [exfalso|reflexivity].
  pose proof M as M0.
  apply match_exception_inv in M as (F' & r' & HF' & M).
  pose proof (fragment_no_backtick _ HF') as BF'.
  change OPEN with (CALLEE ++ [BACKTICK]) in E. rewrite <- app_assoc in E.
  apply suffix_app in E as [(a2 & E1 & Ha2 & ->)|[b1 [-> E]]]; [| |assumption].
  - (* inside [fmt.Sprintf(] *)
    norm. apply backtick_split in M as [-> _];
      [| apply (no_backtick_suffix p); now rewrite <- E1 | assumption].
    apply (fragment_not_callee_end p F' [] HF'). now rewrite <- E1.
  - apply suffix_app in E as [(a2 & E1 & Ha2 & ->)|[b2 [-> E]]];
      [| |assumption].
    + (* at the opening backtick *)
      destruct (fragment_head _ HF') as [F'' ->].
      destruct b1 as [|? b1]; cbn [app] in E1.
      * subst a2. cbn [app] in M. discriminate M.
      * injection E1 as _ E1. destruct b1; [|discriminate E1].
        cbn [app] in E1. now subst a2.
    + apply suffix_app in E as [(a2 & -> & Ha2 & ->)|[b3 [-> E]]];
        [| |assumption].
      * (* inside the literal *)
        norm. apply backtick_split in M as [_ M];
          [| now apply (no_backtick_suffix b2) | assumption].
        assert (startswith ARGS2 (T ++ x) = true) as C; [|now rewrite C in HS].
        apply startswith_spec. now exists r'.
      * (* at the closing backtick or after it *)
        rewrite (no_exception_match_in (BACKTICK :: T) x b3 s') in M0
          by assumption.
        discriminate M0.
Qed.

(** The general pattern matches nowhere inside a month query followed by
    arguments without [f]. *)
Lemma no_general_match_inside_fragment F T x p s' :
  Fragment F -> no_f T = true ->
  F ++ BACKTICK :: T = p ++ s' -> s' <> [] ->
  re.match_ general_code (s' ++ x) = None.
Proof.
  intros HF HT E Hs'.
  destruct (re.match_ general_code (s' ++ x)) as [res|] eqn:M;
    [exfalso|reflexivity].
  apply suffix_app in E as [(a2 & E1 & Ha2 & ->)|[b1 [-> E]]]; [| |assumption].
  - norm. apply match_first_backtick in M as ->.
    + apply (fragment_not_callee_end [] F p HF). exact E1.
    + apply (no_backtick_suffix p). rewrite <- E1.
      now apply fragment_no_backtick.
  - destruct s' as [|c s']; [contradiction|].
    apply head_of_suffix in E. cbn [app] in M. apply match_head in M.
    subst c. destruct E as [E|E]; [discriminate E|].
    unfold no_f in HT. rewrite forallb_forall in HT.
    specialize (HT _ E). discriminate HT.
Qed.

(** Rewriting a call with the general pattern creates no match of the
    exception pattern that starts before that call. *)
Lemma exception_match_after_general_insert s L r :
  re.match_ exception_code (s ++ call L ++ r) = None ->
  re.match_ exception_code (s ++ patched_call L ++ r) = None.
Proof.
  intros HN.
  destruct (re.match_ exception_code (s ++ patched_call L ++ r))
    as [res|] eqn:E; [exfalso|reflexivity].
  apply match_exception_inv in E as (F' & r' & HF' & E).
  pose proof (fragment_no_backtick _ HF') as BF'.
  rewrite patched_call_app, open_app in E. rewrite call_app, open_app in HN.
  destruct (first_backtick s) as [Hs|(s1 & s2 & -> & Hs1)].
  - rewrite app_assoc in E.
    apply backtick_split in E as [E _];
      [|rewrite no_backtick_app, Hs; reflexivity|assumption].
    apply (fragment_not_callee_end [] F' s HF'). now rewrite <- E.
  - norm. apply backtick_split in E as [<- E]; [|assumption|assumption].
    symmetry in E. rewrite (app_assoc s2 CALLEE) in E.
    apply prefix_before in E as [z E]; [|reflexivity].
    rewrite (app_assoc s2 CALLEE), E in HN. norm.
    rewrite match_exception_fragment in HN by assumption. discriminate HN.
Qed.

Lemma exception_match_stable_general : forall t s,
    re.match_ exception_code (s ++ t) = None ->
    re.match_ exception_code (s ++ rewrite_general t) = None.
Proof.
  induction t as [t IH] using text_length_ind. intros s HN.
  destruct (rewrite_general_cases t)
    as [->|[(c & t' & -> & _ & ->)|(L & r & -> & _ & _ & ->)]].
  - exact HN.
  - change (s ++ c :: rewrite_general t')
      with (s ++ [c] ++ rewrite_general t').
    rewrite app_assoc. apply IH; [simpl; lia|].
    now rewrite <- app_assoc.
  - rewrite app_assoc. apply IH; [apply length_call_app|].
    rewrite <- app_assoc. now apply exception_match_after_general_insert.
Qed.

(** Rewriting a month query with the exception pattern creates no match
    of the general pattern that starts before that query. *)
Lemma general_match_after_exception_insert s F r :
  Fragment F ->
  re.match_ general_code (s ++ F ++ BACKTICK :: ARGS2 ++ r) = None ->
  re.match_ general_code (s ++ F ++ BACKTICK :: NEW_ARGS2 ++ r) = None.
Proof.
  intros HF HN.
  destruct (re.match_ general_code (s ++ F ++ BACKTICK :: NEW_ARGS2 ++ r))
    as [res|] eqn:E; [exfalso|reflexivity].
  apply match_general_shape in E as (L' & r' & E & HL' & HG').
  pose proof (fragment_no_backtick _ HF) as BF.
  destruct (first_backtick s) as [Hs|(s1 & s2 & -> & Hs1)].
  - rewrite app_assoc in E.
    apply backtick_split in E as [E _];
      [|rewrite no_backtick_app, Hs, BF; reflexivity|reflexivity].
    now apply (fragment_not_callee_end s F [] HF).
  - norm. apply backtick_split in E as [-> E]; [|assumption|reflexivity].
    destruct (first_backtick s2) as [Hs2|(s3 & s4 & -> & Hs3)].
    + rewrite app_assoc in E.
      apply backtick_split in E as [_ E];
        [|rewrite no_backtick_app, Hs2, BF; reflexivity|assumption].
      discriminate E.
    + norm. apply backtick_split in E as [<- E]; [|assumption|assumption].
      symmetry in E. rewrite (app_assoc s4 F) in E.
      apply prefix_before in E as [z E]; [|reflexivity].
      rewrite (app_assoc s4 F), E in HN. norm.
      rewrite match_general_call' in HN by assumption. discriminate HN.
Qed.

Lemma general_match_stable_exception : forall t s,
    re.match_ general_code (s ++ t) = None ->
    re.match_ general_code (s ++ rewrite_exception t) = None.
Proof.
  induction t as [t IH] using text_length_ind. intros s HN.
  destruct (rewrite_exception_cases t)
    as [->|[(c & t' & -> & _ & ->)|(F & r & -> & HF & ->)]].
  - exact HN.
  - change (s ++ c :: rewrite_exception t')
      with (s ++ [c] ++ rewrite_exception t').
    rewrite app_assoc. apply IH; [simpl; lia|].
    now rewrite <- app_assoc.
  - replace (s ++ F ++ BACKTICK :: NEW_ARGS2 ++ rewrite_exception r)
      with ((s ++ F ++ BACKTICK :: NEW_ARGS2) ++ rewrite_exception r)
      by now norm.
    apply IH; [apply length_fragment_app|]. norm.
    now apply general_match_after_exception_insert.
Qed.

(** The exception pattern copies a call of the general pattern, rewritten
    or not. *)
Lemma rewrite_exception_skips_call L T r :
  no_backtick L = true -> no_st (BACKTICK :: T) = true ->
  (forall x, startswith ARGS2 (T ++ x) = false) ->
  rewrite_exception ((OPEN ++ L ++ BACKTICK :: T) ++ r)
  = (OPEN ++ L ++ BACKTICK :: T) ++ rewrite_exception r.
Proof.
  intros HL HT HS. apply rewrite_exception_prefix.
  apply no_match_starts_in_suffixes. intros p s' E Hs'.
  now apply (no_exception_match_inside_call L T r p s').
Qed.

(** The general pattern copies a month query of the exception pattern,
    rewritten or not. *)
Lemma rewrite_general_skips_fragment F T r :
  Fragment F -> no_f T = true ->
  rewrite_general ((F ++ BACKTICK :: T) ++ r)
  = (F ++ BACKTICK :: T) ++ rewrite_general r.
Proof.
  intros HF HT. apply rewrite_general_prefix.
  apply no_match_starts_in_suffixes. intros p s' E Hs'.
  now apply (no_general_match_inside_fragment F T r p s').
Qed.

Lemma rewrite_exception_call L r :
  no_backtick L = true ->
  rewrite_exception (call L ++ r) = call L ++ rewrite_exception r.
Proof.
  intros HL.
  exact (rewrite_exception_skips_call L ARGS r HL eq_refl (fun x => eq_refl)).
Qed.

Lemma rewrite_exception_patched_call L r :
  no_backtick L = true ->
  rewrite_exception (patched_call L ++ r)
  = patched_call L ++ rewrite_exception r.
Proof.
  intros HL.
  exact (rewrite_exception_skips_call L NEW_ARGS r HL eq_refl
           (fun x => eq_refl)).
Qed.

Lemma rewrite_general_fragment F T r :
  Fragment F -> no_f T = true ->
  rewrite_general (F ++ BACKTICK :: T ++ r)
  = F ++ BACKTICK :: T ++ rewrite_general r.
Proof.
  intros HF HT.
  pose proof (rewrite_general_skips_fragment F T r HF HT) as E.
  now norm.
Qed.

Lemma rewriters_commute_everywhere : forall t,
    rewrite_exception (rewrite_general t)
    = rewrite_general (rewrite_exception t).
Proof.
  induction t as [t IH] using text_length_ind.
  destruct t as [|c t']; [reflexivity|].
  destruct (re.match_ general_code (c :: t')) as [res|] eqn:MG.
  - (* a call of the general pattern *)
    apply match_general_inv in MG as (L & r & E & HL & HG & _).
    assert (length r < length (c :: t')) as Hr
        by (rewrite E; apply length_call_app).
    rewrite E.
    rewrite (rewrite_general_call L r HL HG).
    rewrite (rewrite_exception_patched_call L (rewrite_general r) HL).
    rewrite (rewrite_exception_call L r HL).
    rewrite (rewrite_general_call L (rewrite_exception r) HL HG).
    rewrite (IH r Hr). reflexivity.
  - destruct (re.match_ exception_code (c :: t')) as [res|] eqn:ME.
    + (* a month query of the exception pattern *)
      apply match_exception_inv in ME as (F & r & HF & E).
      assert (length r < length (c :: t')) as Hr
          by (rewrite E; apply length_fragment_app).
      rewrite E.
      rewrite (rewrite_exception_fragment F r HF).
      rewrite (rewrite_general_fragment F ARGS2 r HF eq_refl).
      rewrite (rewrite_general_fragment F NEW_ARGS2 (rewrite_exception r)
                 HF eq_refl).
      rewrite (rewrite_exception_fragment F (rewrite_general r) HF).
      rewrite (IH r Hr). reflexivity.
    + (* neither pattern matches here *)
      pose proof (exception_match_stable_general t' [c] ME) as ME'.
      pose proof (general_match_stable_exception t' [c] MG) as MG'.
      cbn [app] in ME', MG'.
      rewrite (rewrite_general_copy c t' MG).
      rewrite (rewrite_exception_copy c t' ME).
      rewrite (rewrite_exception_copy c (rewrite_general t') ME').
      rewrite (rewrite_general_copy c (rewrite_exception t') MG').
      rewrite (IH t' (Nat.lt_succ_diag_r (length t'))). reflexivity.
Qed.

(** X10.  On every text the two rewriters commute: running the general
    pattern and then the exception pattern gives the same text as running
    them in the other order. *)
Theorem rewriters_commute :
  forall content,
    exists both,
      and_then fix_parquet_queries.new_content fix_sprintf.new_content content
      = Some both
      /\ and_then fix_sprintf.new_content fix_parquet_queries.new_content
                  content
         = Some both.
Proof.
  intros content. exists (rewrite_exception (rewrite_general content)).
  unfold and_then.
  rewrite (new_content_general content), (new_content_exception content).
  split; [apply new_content_exception|].
  rewrite (rewriters_commute_everywhere content). apply new_content_general.
Qed.

(** ** The inserter: what a second run prints *)

(** X11.  A second run on the buffer that a run wrote back writes the same
    buffer and prints the final message only: it reports no addition. *)
Theorem second_run_reports_nothing :
  forall lines,
    exists out printed,
      run lines = Some (out, printed) /\
      run out = Some (out, [final_message]).
Proof.
  intros lines. destruct (run_total lines) as (out & printed & R).
  exists out, printed. split; [assumption|].
  assert (written lines = Some out) as W by (unfold written; now rewrite R).
  pose proof (written_stable lines out W) as S.
  unfold run. rewrite (while_loop_fixed out S) by lia. reflexivity.
Qed.
